(** * SOLID principle scripts: a shallow embedding

    The repository is a set of JavaScript teaching scripts: the Liskov
    script (Rectangle / Square / stretch), the single-responsibility script
    (Journal / PersistenceManager) and the open/closed script (Product,
    ProductFilter, specifications, Filter2).

    Objects live in a heap and are passed by reference, as in JavaScript;
    statements are computations in a state-and-exception monad whose state
    holds the heap, the console and the file system. *)

From stdpp Require Import base gmap strings list sorting pretty.
From Stdlib Require Import ZArith Lia.
From Stdlib Require Import Floats.SpecFloat.

(** ** JavaScript values used by the scripts *)
Module JS.

(** The values stored in [width] and [height]: [undefined] or a number.
    A number is an IEEE 754 binary64 value, with the arithmetic that the
    standard library specifies for it (53 bits of mantissa, infinities at
    exponent 1024, rounding to nearest, ties to even). *)
Inductive value : Type :=
| undefined
| Number (f : spec_float).

#[global] Instance spec_float_eq_dec : EqDecision spec_float.
Proof. solve_decision. Defined.

#[global] Instance value_eq_dec : EqDecision value.
Proof. solve_decision. Defined.

Definition NaN : value := Number S754_nan.

(** The number written as the integer literal [z]: the double nearest to
    [z]. *)
Definition Num (z : Z) : value := Number (binary_normalize 53 1024 z 0 false).

(** ToNumber: [undefined] converts to [NaN]. *)
Definition ToNumber (v : value) : spec_float :=
  match v with
  | undefined => S754_nan
  | Number f => f
  end.

(** The operator [a * b]. *)
Definition mul (a b : value) : value :=
  Number (SFmul 53 1024 (ToNumber a) (ToNumber b)).

(** The operators [a === b] and [a == b]; on an [undefined] and a number
    both are false, on two numbers both compare the numbers, so that [NaN]
    differs from itself and the two zeros are equal. *)
Definition IsStrictlyEqual (a b : value) : bool :=
  match a, b with
  | undefined, undefined => true
  | Number f, Number g => SFeqb f g
  | _, _ => false
  end.

Definition IsLooselyEqual (a b : value) : bool := IsStrictlyEqual a b.

(** The safe integers: below [2 ^ 53] in magnitude. *)
Definition safe (z : Z) : Prop := (Z.abs z < 2 ^ 53)%Z.

(** The integer a number is, if it is one. *)
Definition integer_of (f : spec_float) : option Z :=
  match f with
  | S754_zero _ => Some 0%Z
  | S754_finite s m e =>
      let n := if s then Zneg m else Zpos m in
      if (0 <=? e)%Z then Some (n * 2 ^ e)%Z
      else if (n mod 2 ^ (- e) =? 0)%Z then Some (n / 2 ^ (- e))%Z
      else None
  | _ => None
  end.

(** The runtime's Number::toString on the finite numbers that are not safe
    integers (fractions, and integers from [2 ^ 53] on, where it picks the
    shortest digits that read back as the same double and may switch to
    exponent form).  That algorithm belongs to the engine, not to this
    repository: it is taken as a parameter. *)
Class NumberFormat : Type := decimal_form : spec_float → string.

(** A format for closed examples. *)
Definition plain_format : NumberFormat := λ _, "".

(** ToString, as applied by template literals: a safe integer prints as its
    decimal digits, both zeros as ["0"]. *)
Definition ToString `{!NumberFormat} (v : value) : string :=
  match v with
  | undefined => "undefined"
  | Number S754_nan => "NaN"
  | Number (S754_infinity false) => "Infinity"
  | Number (S754_infinity true) => "-Infinity"
  | Number f =>
      match integer_of f with
      | Some z => if (Z.abs z <? 2 ^ 53)%Z then pretty z else decimal_form f
      | None => decimal_form f
      end
  end.

(** The double that a nonzero safe integer [z] is: sign, a mantissa of 53
    bits and an exponent between -52 and 0. *)
Definition canonical (z : Z) (f : spec_float) : Prop :=
  ∃ m e, f = S754_finite (z <? 0)%Z m e ∧
         Z.log2 (Zpos m) = 52%Z ∧ (-52 ≤ e ≤ 0)%Z ∧
         (Zpos m = Z.abs z * 2 ^ (- e))%Z.

(** [a] is the integer [z], up to the sign of zero. *)
Definition is_integer (a : value) (z : Z) : Prop :=
  a = Num z ∨ (z = 0%Z ∧ a = Number (S754_zero true)).

(** The line feed of ['\n']. *)
Definition LF : string := String (Ascii.ascii_of_nat 10) EmptyString.

(** [Array.prototype.join]. *)
Definition join (sep : string) (xs : list string) : string :=
  String.concat sep xs.

End JS.

(** ** The records behind the classes *)
Module Data.
Import JS.

(** [class Rectangle] and [class Square extends Rectangle]. *)
Inductive class : Type := Rectangle | Square.

#[global] Instance class_eq_dec : EqDecision class.
Proof. solve_decision. Defined.

(** An instance of [Rectangle] or [Square]: its prototype and the two own
    properties that the constructor always assigns.  The functions that
    lines 55-61 store in [Rectangle.prototype.width] and [.height] are
    shadowed by these own properties on every instance. *)
Record Shape : Type := mkShape {
  proto : class;
  width : value;
  height : value
}.

(** An instance of [Journal].  The keys of [entries] are the property
    names that [addEntry] creates from numbers; [Z] stands for them. *)
Record Journal : Type := mkJournal {
  count : Z;
  entries : gmap Z string
}.

(** An instance of [Product]. *)
Record Product : Type := mkProduct {
  name : string;
  color : string;
  size : string
}.

(** What a heap location holds. *)
Inductive object : Type :=
| OShape (s : Shape)
| OJournal (j : Journal).

End Data.

(** ** The world the scripts run in *)
Module World.
Import JS Data.

Definition loc : Type := nat.

(** One argument of [console.log]. *)
Inductive logged : Type :=
| LogStr (s : string)
| LogVal (v : value)
| LogProducts (ps : list Product).

(** A thrown exception. *)
Inductive error : Type :=
| TypeError (msg : string)
| FsError (path : string) (msg : string).

Record world : Type := mkWorld {
  heap : gmap loc object;
  next_loc : loc;
  console : list logged;
  files : gmap string string;
  fs_calls : list (string * string)
}.

(** How an evaluation ends: with a value, or with an exception. *)
Inductive completion (A : Type) : Type :=
| Normal (a : A)
| Throw (e : error).
Arguments Normal {A} a.
Arguments Throw {A} e.

Definition M (A : Type) : Type := world → completion A * world.

Definition run {A} (m : M A) (σ : world) : completion A * world := m σ.

#[global] Instance M_ret : MRet M := λ A a σ, (Normal a, σ).

(** Sequencing: an exception skips the rest (there is no [try]). *)
#[global] Instance M_bind : MBind M := λ A B f m σ,
  match m σ with
  | (Normal a, σ') => f a σ'
  | (Throw e, σ') => (Throw e, σ')
  end.

Definition throw {A} (e : error) : M A := λ σ, (Throw e, σ).

Definition get_heap : M (gmap loc object) := λ σ, (Normal (heap σ), σ).

Definition set_heap (h : gmap loc object) : M unit := λ σ,
  (Normal (), mkWorld h (next_loc σ) (console σ) (files σ) (fs_calls σ)).

(** [new]: a fresh location holding the object. *)
Definition alloc (o : object) : M loc := λ σ,
  let l := next_loc σ in
  (Normal l,
   mkWorld (<[l := o]> (heap σ)) (S l) (console σ) (files σ) (fs_calls σ)).

Definition load (l : loc) : M object :=
  h ← get_heap;
  match h !! l with
  | Some o => mret o
  | None => throw (TypeError "not an object")
  end.

Definition store (l : loc) (o : object) : M unit :=
  h ← get_heap; set_heap (<[l := o]> h).

(** [console.log(x)]. *)
Definition console_log (x : logged) : M unit := λ σ,
  (Normal (),
   mkWorld (heap σ) (next_loc σ) (console σ ++ [x]) (files σ) (fs_calls σ)).

(** How a call of [fs.writeFileSync] can fail.  The file is opened for
    writing, which empties it, and then written: the call fails either
    before the file is opened, or after it was emptied and the first
    [written] characters of the data were put into it. *)
Inductive write_failure : Type :=
| OpenFailed (msg : string)
| WriteFailed (msg : string) (written : nat).

Definition failure_message (failure : write_failure) : string :=
  match failure with
  | OpenFailed msg => msg
  | WriteFailed msg _ => msg
  end.

(** The files after a failed write of [data] to [path]. *)
Definition files_after_failure (failure : write_failure)
    (path data : string) (fs : gmap string string) : gmap string string :=
  match failure with
  | OpenFailed _ => fs
  | WriteFailed _ written => <[path := String.substring 0 written data]> fs
  end.

Section Fs.
(** The file system's verdict on a write of [data] to [path]: [None]
    when it succeeds, the failure otherwise. *)
Variable write_error : string → string → option write_failure.

(** [fs.writeFileSync(path, data)]: the call is recorded; on success the
    file holds exactly [data]; on failure an exception is thrown and the
    file is left as the failure left it. *)
Definition writeFileSync (path data : string) : M unit := λ σ,
  let calls := fs_calls σ ++ [(path, data)] in
  match write_error path data with
  | None =>
      (Normal (),
       mkWorld (heap σ) (next_loc σ) (console σ)
               (<[path := data]> (files σ)) calls)
  | Some failure =>
      (Throw (FsError path (failure_message failure)),
       mkWorld (heap σ) (next_loc σ) (console σ)
               (files_after_failure failure path data (files σ)) calls)
  end.
End Fs.

(** The world [σ] with another heap. *)
Definition with_heap (h : gmap loc object) (σ : world) : world :=
  mkWorld h (next_loc σ) (console σ) (files σ) (fs_calls σ).

(** The world a script starts in: nothing allocated, nothing printed. *)
Definition initial (fs : gmap string string) : world :=
  mkWorld ∅ 0%nat [] fs [].

End World.

(** ** The Liskov script: Rectangle, Square, stretch *)
Module Liskov.
Import JS Data World.

(** Method bodies are functions of the receiver [this]; a call loads the
    receiver from the heap and stores what the body made of it. *)

(** [get area()]. *)
Definition Rectangle_area (this : Shape) : value :=
  mul (width this) (height this).

(** [Rectangle.prototype.toString]. *)
Definition Rectangle_toString `{!NumberFormat} (this : Shape) : string :=
  ToString (width this) +:+ "x" +:+ ToString (height this).

(** The setters added to [Rectangle.prototype] (lines 63-69). *)
Definition Rectangle_prototype_setWidth (value : value) (this : Shape)
  : Shape :=
  mkShape (proto this) value (height this).

Definition Rectangle_prototype_setHeight (value : value) (this : Shape)
  : Shape :=
  mkShape (proto this) (width this) value.

(** The one function stored as both [Square.prototype.setWidth] and
    [Square.prototype.setHeight] (lines 74-76):
    [this.width = this.height = value] assigns [height], then [width]. *)
Definition Square_prototype_setter (value : value) (this : Shape) : Shape :=
  let this := mkShape (proto this) (width this) value in
  mkShape (proto this) value (height this).

(** Method lookup along the prototype chain: a property of
    [Square.prototype] hides the one of [Rectangle.prototype]. *)
Definition lookup_setWidth (c : class) : value → Shape → Shape :=
  match c with
  | Square => Square_prototype_setter
  | Rectangle => Rectangle_prototype_setWidth
  end.

Definition lookup_setHeight (c : class) : value → Shape → Shape :=
  match c with
  | Square => Square_prototype_setter
  | Rectangle => Rectangle_prototype_setHeight
  end.

Definition load_shape (this : loc) : M Shape :=
  o ← load this;
  match o with
  | OShape s => mret s
  | OJournal _ => throw (TypeError "not a shape")
  end.

(** [new Rectangle(width, height)]. *)
Definition new_Rectangle (width height : value) : M loc :=
  alloc (OShape (mkShape Rectangle width height)).

(** [new Square(size)]: [super(size, size)]. *)
Definition new_Square (size : value) : M loc :=
  alloc (OShape (mkShape Square size size)).

(** The expressions [rect.width], [rect.height] and [rect.area]. *)
Definition get_width (rect : loc) : M value :=
  s ← load_shape rect; mret (width s).

Definition get_height (rect : loc) : M value :=
  s ← load_shape rect; mret (height s).

Definition area (rect : loc) : M value :=
  s ← load_shape rect; mret (Rectangle_area s).

(** The call [rect.toString()]. *)
Definition toString `{!NumberFormat} (rect : loc) : M string :=
  s ← load_shape rect; mret (Rectangle_toString s).

(** The direct assignment [rect.width = value] (line 45). *)
Definition assign_width (rect : loc) (value : value) : M unit :=
  s ← load_shape rect;
  store rect (OShape (mkShape (proto s) value (height s))).

(** The calls [rect.setWidth(value)] and [rect.setHeight(value)]. *)
Definition setWidth (rect : loc) (value : value) : M unit :=
  s ← load_shape rect;
  store rect (OShape (lookup_setWidth (proto s) value s)).

Definition setHeight (rect : loc) (value : value) : M unit :=
  s ← load_shape rect;
  store rect (OShape (lookup_setHeight (proto s) value s)).

(** [function stretch(rect)] (lines 92-99). *)
Definition stretch `{!NumberFormat} (rect : loc) : M unit :=
  originalArea ← area rect;
  console_log
    (LogStr ("Before stretching, area is: " +:+ ToString originalArea));;
  w ← get_width rect;
  setWidth rect (mul w (Num 2));;
  h ← get_height rect;
  setHeight rect (mul h (Num 2));;
  console_log
    (LogStr ("Expected area: " +:+ ToString (mul (Num 4) originalArea)));;
  actual ← area rect;
  console_log (LogStr ("Actual area: " +:+ ToString actual)).

End Liskov.

(** ** The single-responsibility script: Journal, PersistenceManager *)
Module SingleResponsibility.
Import JS Data World.

(** Order on properties by key. *)
Definition key_le (a b : Z * string) : Prop := (a.1 ≤ b.1)%Z.

#[global] Instance key_le_dec : RelDecision key_le.
Proof. intros a b. unfold key_le. apply _. Defined.

(** [Object.values(o)] for an object whose keys are integers: the values in
    ascending order of their keys.  (The keys the journal creates grow with
    every insertion, so this is also the order of insertion.) *)
Definition Object_values (o : gmap Z string) : list string :=
  (merge_sort key_le (map_to_list o)).*2.

(** The properties of [o] whose keys are in [ks], in the order of [ks]. *)
Definition properties_at (o : gmap Z string) (ks : list Z)
  : list (Z * string) :=
  omap (λ k, (k ,.) <$> o !! k) ks.

(** [constructor()]. *)
Definition Journal_constructor : Journal := mkJournal 0 ∅.

(** [addEntry(text)] (lines 17-22). *)
Definition Journal_addEntry (text : string) (this : Journal) : Z * Journal :=
  let c := (count this + 1)%Z in
  let this := mkJournal c (entries this) in
  let entry := pretty c +:+ ": " +:+ text in
  let this := mkJournal (count this) (<[c := entry]> (entries this)) in
  (c, this).

(** [removeEntry(index)] (lines 24-26). *)
Definition Journal_removeEntry (index : Z) (this : Journal) : Journal :=
  mkJournal (count this) (delete index (entries this)).

(** [toString()] (lines 28-30). *)
Definition Journal_toString (this : Journal) : string :=
  join LF (Object_values (entries this)).

Definition load_journal (this : loc) : M Journal :=
  o ← load this;
  match o with
  | OJournal j => mret j
  | OShape _ => throw (TypeError "not a journal")
  end.

(** [new Journal()]. *)
Definition new_Journal : M loc := alloc (OJournal Journal_constructor).

(** The calls [journal.addEntry(text)] and [journal.removeEntry(index)]. *)
Definition addEntry (journal : loc) (text : string) : M Z :=
  j ← load_journal journal;
  let '(c, j') := Journal_addEntry text j in
  store journal (OJournal j');;
  mret c.

Definition removeEntry (journal : loc) (index : Z) : M unit :=
  j ← load_journal journal;
  store journal (OJournal (Journal_removeEntry index j)).

(** The call [x.toString()] on whatever object [x] refers to. *)
Definition toString `{!NumberFormat} (x : loc) : M string :=
  o ← load x;
  match o with
  | OJournal j => mret (Journal_toString j)
  | OShape s => mret (Liskov.Rectangle_toString s)
  end.

Section Persistence.
Context `{!NumberFormat}.
Variable write_error : string → string → option write_failure.

(** [PersistenceManager.preprocess(j)]: an empty body. *)
Definition preprocess (j : loc) : M unit := mret ().

(** [PersistenceManager.saveToFile(journal, fileName)] (lines 63-68).  The
    manager itself has no fields and is not allocated in the heap. *)
Definition saveToFile (journal : loc) (fileName : string) : M unit :=
  data ← toString journal;
  writeFileSync write_error fileName data.
End Persistence.

(** The state a journal is in between calls: [count] has not gone below
    zero and every key of [entries] lies between 1 and [count]. *)
Definition journal_inv (j : Journal) : Prop :=
  (0 ≤ count j)%Z ∧ ∀ k, is_Some (entries j !! k) → (1 ≤ k ≤ count j)%Z.

(** A call made on a journal from outside. *)
Inductive call : Type :=
| AddEntry (text : string)
| RemoveEntry (index : Z).

(** The texts handed to [addEntry] by a sequence of calls, in order. *)
Definition texts (cs : list call) : list string :=
  omap (λ c, match c with AddEntry t => Some t | RemoveEntry _ => None end) cs.

Definition invoke (journal : loc) (c : call) : M unit :=
  match c with
  | AddEntry text => addEntry journal text;; mret ()
  | RemoveEntry index => removeEntry journal index
  end.

Fixpoint invoke_all (journal : loc) (cs : list call) : M unit :=
  match cs with
  | [] => mret ()
  | c :: cs' => invoke journal c;; invoke_all journal cs'
  end.

(** The receiver after a call, and after a sequence of calls. *)
Definition after_call (c : call) (this : Journal) : Journal :=
  match c with
  | AddEntry text => (Journal_addEntry text this).2
  | RemoveEntry index => Journal_removeEntry index this
  end.

Fixpoint after_calls (cs : list call) (this : Journal) : Journal :=
  match cs with
  | [] => this
  | c :: cs' => after_calls cs' (after_call c this)
  end.

End SingleResponsibility.

(** ** The open/closed script: Product, ProductFilter, specifications *)
Module OpenClosed.
Import JS Data World.

(** The frozen objects [Color] and [Size]. *)
Module Color.
Definition red : string := "red".
Definition green : string := "green".
Definition blue : string := "blue".
End Color.

Module Size.
Definition small : string := "small".
Definition medium : string := "medium".
Definition large : string := "large".
End Size.

(** [===] on strings. *)
Definition strict_eq (a b : string) : bool := String.eqb a b.

(** [Array.prototype.filter]. *)
Definition Array_filter {A} (f : A → bool) (xs : list A) : list A :=
  List.filter f xs.

(** [class ProductFilter] (lines 45-54). *)
Definition filterByColor (products : list Product) (color : string)
  : list Product :=
  Array_filter (λ p, strict_eq (Data.color p) color) products.

Definition filterBySize (products : list Product) (size : string)
  : list Product :=
  Array_filter (λ p, strict_eq (Data.size p) size) products.

(** A specification whose [isSatisfied] only reads the item and the
    specification's own fields, as the two classes of the script do. *)
Class Specification (S : Type) : Type :=
  isSatisfied : S → Product → bool.

(** [class ColorSpecification] (lines 74-82). *)
Record ColorSpecification : Type := new_ColorSpecification {
  spec_color : string
}.

#[global] Instance ColorSpecification_isSatisfied
  : Specification ColorSpecification :=
  λ this item, strict_eq (Data.color item) (spec_color this).

(** [class SizeSpecification] (lines 85-93). *)
Record SizeSpecification : Type := new_SizeSpecification {
  spec_size : string
}.

#[global] Instance SizeSpecification_isSatisfied
  : Specification SizeSpecification :=
  λ this item, strict_eq (Data.size item) (spec_size this).

(** [class Filter2] (lines 100-104). *)
Definition Filter2_filter {S} `{Specification S}
    (items : list Product) (spec : S) : list Product :=
  Array_filter (λ item, isSatisfied spec item) items.

Definition book : Product := mkProduct "Book" Color.red Size.small.
Definition laptop : Product := mkProduct "laptop" Color.blue Size.medium.
Definition surfboard : Product :=
  mkProduct "Surfboard" Color.green Size.large.
Definition products : list Product := [book; laptop; surfboard].

End OpenClosed.

(** ** The five files, statement by statement *)
Module Scripts.
Import JS Data World.

(** The Liskov script up to line 81. *)
Definition liskov_prefix `{!NumberFormat} : M unit :=
  rc ← Liskov.new_Rectangle (Num 10) (Num 20);
  s ← Liskov.toString rc;
  console_log (LogStr s);;
  sq ← Liskov.new_Square (Num 5);
  s ← Liskov.toString sq;
  console_log (LogStr s);;
  Liskov.assign_width sq (Num 10);;
  s ← Liskov.toString sq;
  console_log (LogStr s);;
  sq2 ← Liskov.new_Square undefined;
  Liskov.setWidth sq2 (Num 10);;
  a ← Liskov.area sq2;
  console_log (LogVal a).

(** The whole Liskov script. *)
Definition liskov `{!NumberFormat} : M unit :=
  liskov_prefix;;
  rect2 ← Liskov.new_Rectangle (Num 11) (Num 5);
  Liskov.stretch rect2;;
  sq3 ← Liskov.new_Square (Num 10);
  Liskov.stretch sq3.

(** [s_for_single_responsibility.js]. *)
Definition single_responsibility `{!NumberFormat}
    (write_error : string → string → option write_failure) : M unit :=
  journal ← SingleResponsibility.new_Journal;
  SingleResponsibility.addEntry journal "Today was a great day!";;
  SingleResponsibility.addEntry journal "I made a new friend today";;
  s ← SingleResponsibility.toString journal;
  console_log (LogStr s);;
  let fileName := "./journal.txt" in
  SingleResponsibility.saveToFile write_error journal fileName.

(** [o_for_open_closed.js], which stops at line 68. *)
Definition open_closed_prefix : M unit :=
  let redProducts :=
    OpenClosed.filterByColor OpenClosed.products OpenClosed.Color.red in
  console_log (LogProducts redProducts).

(** The whole open/closed script. *)
Definition open_closed : M unit :=
  open_closed_prefix;;
  let greenColorSpec :=
    OpenClosed.new_ColorSpecification OpenClosed.Color.green in
  console_log (LogStr "Green products based on the new filter:");;
  let greens := OpenClosed.Filter2_filter OpenClosed.products greenColorSpec in
  console_log (LogProducts greens).

End Scripts.


(** * Properties *)

Import JS Data World.

(** ** Multiplication of doubles on the safe integers *)
Section NumberFacts.
Context `{!NumberFormat}.

Lemma digits2_pos_log2 (p : positive) :
  Zpos (digits2_pos p) = (Z.log2 (Zpos p) + 1)%Z.
Proof.
  assert (∀ q, digits2_pos q = Pos.size q) as Hsize
    by (induction q as [q IH|q IH|]; cbn; by rewrite ?IH).
  destruct p as [p|p|]; cbn; rewrite ?Hsize; lia.
Qed.

Lemma iter_pos_nat {A} (f : A → A) (n : positive) (x : A) :
  iter_pos f n x = Nat.iter (Pos.to_nat n) f x.
Proof.
  revert x. induction n as [n IH|n IH|]; intros x; cbn [iter_pos].
  - rewrite !IH, Pos2Nat.inj_xI.
    replace (S (2 * Pos.to_nat n)) with (Pos.to_nat n + (Pos.to_nat n + 1))%nat by lia.
    rewrite !Nat.iter_add. cbn. done.
  - rewrite !IH, Pos2Nat.inj_xO.
    replace (2 * Pos.to_nat n)%nat with (Pos.to_nat n + Pos.to_nat n)%nat by lia.
    by rewrite Nat.iter_add.
  - done.
Qed.

Lemma Zpos_iter_xO (k : nat) (m : positive) :
  Zpos (Nat.iter k xO m) = (Zpos m * 2 ^ Z.of_nat k)%Z.
Proof.
  induction k as [|k IH]; [cbn; lia|].
  rewrite Nat2Z.inj_succ, Z.pow_succ_r by lia.
  change (Nat.iter (S k) xO m) with (xO (Nat.iter k xO m)).
  rewrite Pos2Z.inj_xO, IH. lia.
Qed.

Lemma shr_exact (k : nat) (m : positive) :
  Nat.iter k shr_1 (Build_shr_record (Zpos (Nat.iter k xO m)) false false) =
  Build_shr_record (Zpos m) false false.
Proof.
  induction k as [|k IH]; [done|].
  rewrite Nat.iter_succ_r.
  change (Nat.iter (S k) xO m) with (xO (Nat.iter k xO m)).
  cbn [shr_1 orb]. apply IH.
Qed.

Lemma shr_fexp_canonical (m : positive) (e : Z) :
  Z.log2 (Zpos m) = 52%Z → (-1074 ≤ e)%Z →
  shr_fexp 53 1024 (Zpos m) e loc_Exact =
  (Build_shr_record (Zpos m) false false, e).
Proof.
  intros Hm He. unfold shr_fexp. cbn [shr_record_of_loc Zdigits2].
  rewrite digits2_pos_log2, Hm. unfold fexp, emin.
  replace (Z.max (52 + 1 + e - 53) (3 - 1024 - 53) - e)%Z with 0%Z by lia.
  reflexivity.
Qed.

(** An exact mantissa of 53 bits in range is left as it is. *)
Lemma binary_round_aux_canonical (s : bool) (m : positive) (e : Z) :
  Z.log2 (Zpos m) = 52%Z → (-1074 ≤ e ≤ 971)%Z →
  binary_round_aux 53 1024 s (Zpos m) e loc_Exact = S754_finite s m e.
Proof.
  intros Hm He. unfold binary_round_aux.
  rewrite shr_fexp_canonical by (done || lia).
  cbn [loc_of_shr_record shr_m round_nearest_even].
  rewrite shr_fexp_canonical by (done || lia). cbn [shr_m].
  destruct (Z.leb_spec e (1024 - 53)); [done|lia].
Qed.

(** Trailing zero bits are shifted out without rounding. *)
Lemma binary_round_aux_shift (s : bool) (m M : positive) (e n : Z) :
  Z.log2 (Zpos m) = 52%Z → (0 < n)%Z → (-1074 ≤ e + n ≤ 971)%Z →
  Zpos M = (Zpos m * 2 ^ n)%Z →
  binary_round_aux 53 1024 s (Zpos M) e loc_Exact = S754_finite s m (e + n).
Proof.
  intros Hm Hn He HM.
  assert (Z.log2 (Zpos M) = 52 + n)%Z as HlogM
    by (rewrite HM, Z.log2_mul_pow2, Hm by lia; lia).
  assert (M = Nat.iter (Z.to_nat n) xO m) as HMiter.
  { apply Pos2Z.inj. rewrite Zpos_iter_xO, Z2Nat.id by lia. done. }
  unfold binary_round_aux, shr_fexp at 1.
  cbn [shr_record_of_loc Zdigits2].
  rewrite digits2_pos_log2, HlogM. unfold fexp at 1, emin.
  replace (Z.max (52 + n + 1 + e - 53) (3 - 1024 - 53) - e)%Z with n by lia.
  destruct n as [|n|n]; [lia| |lia]. cbn [shr].
  rewrite iter_pos_nat, HMiter.
  replace (Pos.to_nat n) with (Z.to_nat (Z.pos n)) by lia.
  rewrite shr_exact. cbn [shr_m loc_of_shr_record round_nearest_even].
  rewrite shr_fexp_canonical by (done || lia). cbn [shr_m].
  destruct (Z.leb_spec (e + Z.pos n) (1024 - 53)); [done|lia].
Qed.

Lemma canonical_unique z f g : canonical z f → canonical z g → f = g.
Proof.
  intros (m & e & -> & Hm & He & Hz) (m' & e' & -> & Hm' & He' & Hz').
  assert (0 < Z.abs z)%Z as Hpos by (destruct z; cbn in *; lia).
  assert (Z.log2 (Z.abs z) = 52 + e)%Z as Hlog.
  { rewrite Hz, Z.log2_mul_pow2 in Hm by lia. lia. }
  assert (Z.log2 (Z.abs z) = 52 + e')%Z as Hlog'.
  { rewrite Hz', Z.log2_mul_pow2 in Hm' by lia. lia. }
  assert (e = e') as <- by lia.
  assert (m = m') as <- by (apply Pos2Z.inj; lia).
  done.
Qed.

Lemma Zpos_Pos_iter_xO (k p : positive) :
  Zpos (Pos.iter xO p k) = (Zpos p * 2 ^ Zpos k)%Z.
Proof.
  induction k as [|k IH] using Pos.peano_ind.
  - cbn. lia.
  - rewrite Pos.iter_succ, Pos2Z.inj_xO, IH, Pos2Z.inj_succ.
    rewrite Z.pow_succ_r by lia. lia.
Qed.

Lemma normalize_canonical (z : Z) :
  z ≠ 0%Z → (Z.abs z < 2 ^ 53)%Z → canonical z (binary_normalize 53 1024 z 0 false).
Proof.
  intros Hz Hsafe.
  assert (∃ p, Z.abs z = Zpos p ∧ binary_normalize 53 1024 z 0 false = binary_round 53 1024 (z <? 0)%Z p 0)
    as (p & Hp & ->) by (destruct z as [|p|p]; [done|by exists p..]).
  set (d := Z.log2 (Zpos p)).
  assert (0 ≤ d < 53)%Z as Hd.
  { split; [apply Z.log2_nonneg|]. apply Z.log2_lt_pow2; lia. }
  unfold binary_round, shl_align. rewrite digits2_pos_log2. fold d.
  unfold fexp, emin.
  replace (Z.max (d + 1 + 0 - 53) (3 - 1024 - 53) - 0)%Z with (d - 52)%Z by lia.
  destruct (d - 52)%Z as [|k|k] eqn:Hk; [|lia|].
  - rewrite binary_round_aux_canonical by (fold d; lia).
    exists p, 0%Z. rewrite Hp. repeat split; [fold d; lia|lia..].
  - pose proof (Zpos_Pos_iter_xO k p) as Hiter.
    assert (Z.log2 (Zpos (Pos.iter xO p k)) = 52)%Z as Hlog.
    { rewrite Hiter, Z.log2_mul_pow2 by lia. fold d. lia. }
    replace (Z.max (d + 1 + 0 - 53) (3 - 1024 - 53))%Z with (d - 52)%Z by lia.
    rewrite binary_round_aux_canonical by (done || lia).
    eexists _, _. split; [reflexivity|]. split; [done|]. split; [lia|].
    rewrite Hiter, Hp. f_equal. f_equal. lia.
Qed.

Lemma SFmul_canonical (x y : Z) (fx fy : spec_float) :
  canonical x fx → canonical y fy → (Z.abs (x * y) < 2 ^ 53)%Z →
  canonical (x * y) (SFmul 53 1024 fx fy).
Proof.
  intros (mx & ex & -> & Hmx & Hex & Hx) (my & ey & -> & Hmy & Hey & Hy) Hsafe.
  assert (0 < Z.abs x)%Z as Hxpos by (destruct x; cbn in *; lia).
  assert (0 < Z.abs y)%Z as Hypos by (destruct y; cbn in *; lia).
  assert (Z.log2 (Z.abs x) = 52 + ex)%Z as Hlx
    by (rewrite Hx, Z.log2_mul_pow2 in Hmx by lia; lia).
  assert (Z.log2 (Z.abs y) = 52 + ey)%Z as Hly
    by (rewrite Hy, Z.log2_mul_pow2 in Hmy by lia; lia).
  set (D := Z.log2 (Z.abs (x * y))).
  assert (0 < Z.abs (x * y))%Z as Hxypos by (rewrite Z.abs_mul; lia).
  assert (D < 53)%Z as HD by (apply Z.log2_lt_pow2; lia).
  assert (Z.log2 (Z.abs x) + Z.log2 (Z.abs y) ≤ D)%Z as Hbelow
    by (subst D; rewrite Z.abs_mul; apply Z.log2_mul_below; lia).
  assert (0 ≤ D)%Z as HD0 by apply Z.log2_nonneg.
  set (e' := (D - 52)%Z). set (n := (e' - (ex + ey))%Z).
  assert (∃ m', Zpos m' = Z.abs (x * y) * 2 ^ (- e'))%Z as [m' Hm'].
  { exists (Z.to_pos (Z.abs (x * y) * 2 ^ (- e'))). rewrite Z2Pos.id; [done|].
    apply Z.mul_pos_pos; [done|]. apply Z.pow_pos_nonneg; lia. }
  assert (Z.log2 (Zpos m') = 52)%Z as Hlog'.
  { rewrite Hm', Z.log2_mul_pow2 by lia. fold D. lia. }
  cbn [SFmul].
  rewrite (binary_round_aux_shift _ m' _ _ n); [|done|lia|lia|].
  - exists m', e'. replace (ex + ey + n)%Z with e' by lia.
    split; [f_equal|split; [done|split; [lia|done]]].
    destruct x, y; cbn in *; done || lia.
  - rewrite Pos2Z.inj_mul, Hx, Hy, Hm', Z.abs_mul.
    assert (2 ^ (- ex) * 2 ^ (- ey) = 2 ^ (- e') * 2 ^ n)%Z as Hpow
      by (rewrite <- !Z.pow_add_r by lia; f_equal; lia).
    transitivity (Z.abs x * Z.abs y * (2 ^ (- ex) * 2 ^ (- ey)))%Z; [ring|].
    rewrite Hpow. ring.
Qed.

Lemma SFmul_normalize (x y : Z) :
  x ≠ 0%Z → y ≠ 0%Z →
  (Z.abs x < 2 ^ 53)%Z → (Z.abs y < 2 ^ 53)%Z → (Z.abs (x * y) < 2 ^ 53)%Z →
  SFmul 53 1024 (binary_normalize 53 1024 x 0 false) (binary_normalize 53 1024 y 0 false) = binary_normalize 53 1024 (x * y) 0 false.
Proof.
  intros Hx Hy Hsx Hsy Hsxy.
  apply (canonical_unique (x * y)).
  - by apply SFmul_canonical; [apply normalize_canonical..|].
  - apply normalize_canonical; [lia|done].
Qed.

Lemma Num_canonical (z : Z) :
  z ≠ 0%Z → safe z →
  ∃ f, Num z = Number f ∧ canonical z f.
Proof.
  intros Hz Hsafe. eexists. split; [reflexivity|].
  by apply normalize_canonical.
Qed.

Lemma safe_factors (x y : Z) :
  x ≠ 0%Z → y ≠ 0%Z → safe (x * y) → safe x ∧ safe y.
Proof. unfold safe. intros Hx Hy Hxy. rewrite Z.abs_mul in Hxy. nia. Qed.

(** On safe integers with a safe product [*] is exact; a zero product has
    the sign that the signs of the factors give it. *)
Lemma mul_Num (x y : Z) :
  safe x → safe y → safe (x * y) →
  mul (Num x) (Num y) =
  if decide (x * y = 0)%Z
  then Number (S754_zero (xorb (x <? 0)%Z (y <? 0)%Z))
  else Num (x * y).
Proof.
  intros Hx Hy Hxy. case_decide as Hzero.
  - destruct (decide (x = 0%Z)) as [->|Hx0];
      [|destruct (decide (y = 0%Z)) as [->|Hy0]; [|lia]].
    + destruct (decide (y = 0%Z)) as [->|Hy0]; [done|].
      destruct (Num_canonical y Hy0 Hy) as (f & Hf & m & e & -> & _).
      rewrite Hf. done.
    + destruct (Num_canonical x Hx0 Hx) as (f & Hf & m & e & -> & _).
      rewrite Hf. unfold mul. cbn. by rewrite xorb_false_r.
  - unfold mul, Num. cbn [ToNumber]. f_equal.
    apply SFmul_normalize; unfold safe in *; lia.
Qed.

Lemma mul_Num_exact (x y : Z) :
  safe x → safe y → safe (x * y) →
  (x * y ≠ 0 ∨ xorb (x <? 0) (y <? 0) = false)%Z →
  mul (Num x) (Num y) = Num (x * y).
Proof.
  intros Hx Hy Hxy Hsign. rewrite mul_Num by done.
  case_decide as Hzero; [|done].
  destruct Hsign as [? | Hsign]; [done|]. by rewrite Hsign, Hzero.
Qed.

(** Doubling is exact. *)
Lemma mul_Num_2 (x : Z) : safe (2 * x) → mul (Num x) (Num 2) = Num (2 * x).
Proof.
  intros Hx. rewrite mul_Num_exact.
  - f_equal. lia.
  - unfold safe in *. lia.
  - done.
  - by rewrite Z.mul_comm.
  - destruct (decide (x = 0%Z)) as [->|]; [by right|left; lia].
Qed.

Lemma is_integer_Num (z : Z) : is_integer (Num z) z.
Proof. by left. Qed.

Lemma is_integer_zero (s : bool) : is_integer (Number (S754_zero s)) 0.
Proof. destruct s; [by right|by left]. Qed.

Lemma mul_zero_Num (s : bool) (y : Z) :
  safe y →
  ∃ s', mul (Number (S754_zero s)) (Num y) = Number (S754_zero s') ∧
        mul (Num y) (Number (S754_zero s)) = Number (S754_zero s').
Proof.
  intros Hy. destruct (decide (y = 0%Z)) as [->|Hy0].
  - exists (xorb s false). split; [done|]. unfold mul. cbn.
    by rewrite xorb_comm.
  - destruct (Num_canonical y Hy0 Hy) as (f & Hf & m & e & -> & _).
    rewrite Hf. eexists. unfold mul. cbn. split; [done|].
    by rewrite xorb_comm.
Qed.

Lemma mul_is_integer (a b : value) (x y : Z) :
  is_integer a x → is_integer b y →
  safe x → safe y → safe (x * y) →
  is_integer (mul a b) (x * y).
Proof.
  intros [-> | [-> ->]] [-> | [-> ->]] Hx Hy Hxy.
  - rewrite mul_Num by done. case_decide as Hzero; [|by left].
    rewrite Hzero. apply is_integer_zero.
  - rewrite Z.mul_0_r.
    destruct (mul_zero_Num true x Hx) as (s' & _ & ->).
    apply is_integer_zero.
  - rewrite Z.mul_0_l.
    destruct (mul_zero_Num true y Hy) as (s' & -> & _).
    apply is_integer_zero.
  - apply is_integer_zero.
Qed.

Lemma integer_of_canonical (z : Z) (f : spec_float) :
  canonical z f → integer_of f = Some z.
Proof.
  intros (m & e & -> & _ & He & Hm). cbn [integer_of].
  assert ((if (z <? 0)%Z then Z.neg m else Z.pos m) = z * 2 ^ (- e))%Z as ->.
  { destruct (Z.ltb_spec z 0).
    - rewrite <- Pos2Z.opp_pos, Hm. lia.
    - rewrite Hm. lia. }
  destruct (Z.leb_spec 0 e).
  - replace e with 0%Z by lia. cbn. f_equal. lia.
  - assert (0 < 2 ^ (- e))%Z by (apply Z.pow_pos_nonneg; lia).
    rewrite Z.mod_mul by lia. cbn. by rewrite Z.div_mul by lia.
Qed.

(** A safe integer prints as its digits, a zero of either sign as 0. *)
Lemma ToString_is_integer (a : value) (z : Z) :
  is_integer a z → safe z → ToString a = pretty z.
Proof.
  intros [-> | [-> ->]] Hz; [|done].
  destruct (decide (z = 0%Z)) as [->|Hz0]; [done|].
  destruct (Num_canonical z Hz0 Hz) as (f & -> & Hf).
  pose proof (integer_of_canonical z f Hf) as Hint.
  destruct Hf as (m & e & -> & _). cbn [ToString]. rewrite Hint.
  unfold safe in Hz. by destruct (Z.ltb_spec (Z.abs z) (2 ^ 53)); [|lia].
Qed.

Lemma ToString_Num (z : Z) : safe z → ToString (Num z) = pretty z.
Proof. apply ToString_is_integer, is_integer_Num. Qed.

Lemma SFeqb_refl (f : spec_float) : f ≠ S754_nan → SFeqb f f = true.
Proof.
  intros Hf. unfold SFeqb. destruct f as [s|s| |s m e]; [by destruct s..|done|].
  cbn. rewrite Z.compare_refl, Pos.compare_cont_refl. by destruct s.
Qed.


End NumberFacts.

(** ** Running statements *)

Lemma run_bind {A B} (m : M A) (f : A → M B) (σ : world) :
  run (m ≫= f) σ =
  match run m σ with
  | (Normal a, σ') => run (f a) σ'
  | (Throw e, σ') => (Throw e, σ')
  end.
Proof. reflexivity. Qed.

Lemma run_ret {A} (a : A) (σ : world) : run (mret a) σ = (Normal a, σ).
Proof. reflexivity. Qed.

Lemma run_load (σ : world) (l : loc) (o : object) :
  heap σ !! l = Some o → run (load l) σ = (Normal o, σ).
Proof.
  intros Hl. unfold load. rewrite run_bind. cbn. by rewrite Hl.
Qed.

Lemma run_store (σ : world) (l : loc) (o : object) :
  run (store l o) σ = (Normal (), with_heap (<[l := o]> (heap σ)) σ).
Proof. reflexivity. Qed.

Lemma heap_with_heap (h : gmap loc object) (σ : world) :
  heap (with_heap h σ) = h.
Proof. reflexivity. Qed.

(** ** Shapes *)
Section LiskovFacts.
Import Liskov.
Context `{!NumberFormat}.

Lemma run_load_shape (σ : world) (l : loc) (s : Shape) :
  heap σ !! l = Some (OShape s) → run (load_shape l) σ = (Normal s, σ).
Proof.
  intros Hl. unfold load_shape. rewrite run_bind, (run_load _ _ _ Hl). done.
Qed.

Lemma run_get_width (σ : world) (l : loc) (s : Shape) :
  heap σ !! l = Some (OShape s) → run (get_width l) σ = (Normal (width s), σ).
Proof.
  intros Hl. unfold get_width. by rewrite run_bind, (run_load_shape _ _ _ Hl).
Qed.

Lemma run_get_height (σ : world) (l : loc) (s : Shape) :
  heap σ !! l = Some (OShape s) →
  run (get_height l) σ = (Normal (height s), σ).
Proof.
  intros Hl. unfold get_height.
  by rewrite run_bind, (run_load_shape _ _ _ Hl).
Qed.

Lemma run_area (σ : world) (l : loc) (s : Shape) :
  heap σ !! l = Some (OShape s) →
  run (area l) σ = (Normal (Rectangle_area s), σ).
Proof.
  intros Hl. unfold area. by rewrite run_bind, (run_load_shape _ _ _ Hl).
Qed.

Lemma run_toString (σ : world) (l : loc) (s : Shape) :
  heap σ !! l = Some (OShape s) →
  run (toString l) σ = (Normal (Rectangle_toString s), σ).
Proof.
  intros Hl. unfold toString. by rewrite run_bind, (run_load_shape _ _ _ Hl).
Qed.

Lemma run_setWidth (σ : world) (l : loc) (s : Shape) (v : value) :
  heap σ !! l = Some (OShape s) →
  run (setWidth l v) σ =
  (Normal (),
   with_heap (<[l := OShape (lookup_setWidth (proto s) v s)]> (heap σ)) σ).
Proof.
  intros Hl. unfold setWidth.
  by rewrite run_bind, (run_load_shape _ _ _ Hl), run_store.
Qed.

Lemma run_setHeight (σ : world) (l : loc) (s : Shape) (v : value) :
  heap σ !! l = Some (OShape s) →
  run (setHeight l v) σ =
  (Normal (),
   with_heap (<[l := OShape (lookup_setHeight (proto s) v s)]> (heap σ)) σ).
Proof.
  intros Hl. unfold setHeight.
  by rewrite run_bind, (run_load_shape _ _ _ Hl), run_store.
Qed.

(** What [stretch] does to any shape: both setters run in turn, the second
    one on what the first one left. *)
Lemma run_stretch (σ : world) (l : loc) (s : Shape) :
  heap σ !! l = Some (OShape s) →
  let s1 := lookup_setWidth (proto s) (mul (width s) (Num 2)) s in
  let s2 := lookup_setHeight (proto s1) (mul (height s1) (Num 2)) s1 in
  run (stretch l) σ =
  (Normal (),
   mkWorld (<[l := OShape s2]> (heap σ)) (next_loc σ)
     (console σ ++
      [LogStr ("Before stretching, area is: " +:+
               ToString (Rectangle_area s));
       LogStr ("Expected area: " +:+
               ToString (mul (Num 4) (Rectangle_area s)));
       LogStr ("Actual area: " +:+ ToString (Rectangle_area s2))])
     (files σ) (fs_calls σ)).
Proof.
  intros Hl s1 s2. unfold stretch.
  rewrite run_bind, (run_area _ _ _ Hl).
  rewrite run_bind. cbn [run console_log].
  set (σ1 := mkWorld _ _ _ _ _).
  assert (heap σ1 !! l = Some (OShape s)) as Hl1 by done.
  rewrite run_bind, (run_get_width _ _ _ Hl1).
  rewrite run_bind, (run_setWidth _ _ _ _ Hl1).
  set (σ2 := with_heap _ σ1).
  assert (heap σ2 !! l = Some (OShape s1)) as Hl2.
  { subst σ2. rewrite heap_with_heap. apply lookup_insert_eq. }
  rewrite run_bind, (run_get_height _ _ _ Hl2).
  rewrite run_bind, (run_setHeight _ _ _ _ Hl2).
  set (σ3 := with_heap _ σ2).
  assert (heap σ3 !! l = Some (OShape s2)) as Hl3.
  { subst σ3. rewrite heap_with_heap. apply lookup_insert_eq. }
  rewrite run_bind. cbn [run console_log].
  set (σ4 := mkWorld _ _ _ _ _).
  assert (heap σ4 !! l = Some (OShape s2)) as Hl4 by done.
  rewrite run_bind, (run_area _ _ _ Hl4).
  subst σ4 σ3 σ2 σ1. unfold run, console_log, with_heap. cbn.
  rewrite insert_insert_eq. by rewrite <- !app_assoc.
Qed.

(** The heap after [new Square(size)] holds the square at the location
    that [new] returns. *)
Lemma run_new_then {A} (σ : world) (o : object) (k : loc → M A) :
  run (alloc o ≫= k) σ =
  run (k (next_loc σ))
      (mkWorld (<[next_loc σ := o]> (heap σ)) (S (next_loc σ))
               (console σ) (files σ) (fs_calls σ)).
Proof. reflexivity. Qed.

Ltac safe_arith := unfold safe in *; first [ lia | nia ].

Ltac shape_steps :=
  repeat (progress
    (cbn [proto width height lookup_setWidth lookup_setHeight];
     unfold Square_prototype_setter, Rectangle_prototype_setWidth,
       Rectangle_prototype_setHeight, Rectangle_area)).

(** [stretch] on a square holding two safe integers. *)
Lemma run_stretch_Square (σ : world) (sq : loc) (w h : Z) :
  heap σ !! sq = Some (OShape (mkShape Square (Num w) (Num h))) →
  safe h → safe (4 * (w * h)) → safe (16 * (w * w)) →
  run (stretch sq) σ =
  (Normal (),
   mkWorld
     (<[sq := OShape (mkShape Square (Num (4 * w)) (Num (4 * w)))]> (heap σ))
     (next_loc σ)
     (console σ ++
      [LogStr ("Before stretching, area is: " +:+ pretty (w * h)%Z);
       LogStr ("Expected area: " +:+ pretty (4 * (w * h))%Z);
       LogStr ("Actual area: " +:+ pretty (16 * (w * w))%Z)])
     (files σ) (fs_calls σ)).
Proof.
  intros Hsq Hh Hwh Hww.
  assert (safe w) as Hw by safe_arith.
  assert (safe (w * h)) as Hwh' by safe_arith.
  rewrite (run_stretch _ _ _ Hsq). shape_steps.
  rewrite (mul_Num_2 w) by safe_arith. shape_steps.
  rewrite (mul_Num_2 (2 * w)) by safe_arith.
  replace (2 * (2 * w))%Z with (4 * w)%Z by lia.
  rewrite (ToString_is_integer (mul (Num w) (Num h)) (w * h));
    [|by apply mul_is_integer; try apply is_integer_Num|done].
  rewrite (ToString_is_integer (mul (Num 4) (mul (Num w) (Num h)))
             (4 * (w * h)));
    [|apply mul_is_integer;
        [apply is_integer_Num
        |by apply mul_is_integer; try apply is_integer_Num
        |done..]
     |done].
  rewrite (mul_Num_exact (4 * w) (4 * w));
    [|safe_arith|safe_arith|safe_arith|right; by destruct (4 * w <? 0)%Z].
  rewrite ToString_Num by safe_arith.
  replace (4 * w * (4 * w))%Z with (16 * (w * w))%Z by lia.
  done.
Qed.



(** C2.  [toString] of a rectangle is its width, the letter x and its
    height, each converted to a string; for 10 and 20 it is ["10x20"], which
    is also the first line the script prints. *)
Theorem rectangle_toString
    (σ : world) (w h : value) (fs : gmap string string) :
  run (new_Rectangle w h ≫= toString) σ =
    (Normal (ToString w +:+ "x" +:+ ToString h),
     mkWorld (<[next_loc σ := OShape (mkShape Rectangle w h)]> (heap σ))
             (S (next_loc σ)) (console σ) (files σ) (fs_calls σ)) ∧
  (run (new_Rectangle (Num 10) (Num 20) ≫= toString) σ).1 = Normal "10x20" ∧
  head (console (run Scripts.liskov (initial fs)).2) = Some (LogStr "10x20").
Proof.
  split; [|split].
  - unfold new_Rectangle. rewrite run_new_then.
    erewrite run_toString; [|apply lookup_insert_eq]. done.
  - unfold new_Rectangle. rewrite run_new_then.
    erewrite run_toString; [|apply lookup_insert_eq]. done.
  - vm_compute. reflexivity.
Qed.


(** C10.  Whatever the two sides of a square hold, calling [setWidth] or
    [setHeight] with [v] leaves the one value [v] in both, and the area
    read afterwards is [v * v].  The comparison [width == height] then
    holds unless [v] is [NaN], and for an integer [z] with a safe square the
    area is [z * z]. *)
Theorem square_setter_restores_invariant
    (σ : world) (sq : loc) (w h v : value) :
  heap σ !! sq = Some (OShape (mkShape Square w h)) →
  let σ' := with_heap (<[sq := OShape (mkShape Square v v)]> (heap σ)) σ in
  run (setWidth sq v) σ = (Normal (), σ') ∧
  run (setHeight sq v) σ = (Normal (), σ') ∧
  run (get_width sq) σ' = (Normal v, σ') ∧
  run (get_height sq) σ' = (Normal v, σ') ∧
  run (area sq) σ' = (Normal (mul v v), σ') ∧
  (IsLooselyEqual v v = true ↔ v ≠ NaN) ∧
  (∀ z : Z, safe (z * z) → mul (Num z) (Num z) = Num (z * z)).
Proof.
  intros Hsq σ'.
  assert (heap σ' !! sq = Some (OShape (mkShape Square v v))) as Hsq'
    by apply lookup_insert_eq.
  split; [by rewrite (run_setWidth _ _ _ _ Hsq)|].
  split; [by rewrite (run_setHeight _ _ _ _ Hsq)|].
  split; [by rewrite (run_get_width _ _ _ Hsq')|].
  split; [by rewrite (run_get_height _ _ _ Hsq')|].
  split; [by rewrite (run_area _ _ _ Hsq')|].
  split.
  - destruct v as [|f]; [done|]. unfold IsLooselyEqual, NaN. cbn. split.
    + intros Heq [= ->]. done.
    + intros Hne. apply SFeqb_refl. congruence.
  - intros z Hz. apply mul_Num_exact; [safe_arith..|].
    right. by destruct (z <? 0)%Z.
Qed.

(** What the Liskov script prints. *)
Lemma liskov_console (fs : gmap string string) :
  run Scripts.liskov (initial fs) =
  (Normal (),
   mkWorld
     (list_to_map
        [(0%nat, OShape (mkShape Rectangle (Num 10) (Num 20)));
         (1%nat, OShape (mkShape Square (Num 10) (Num 5)));
         (2%nat, OShape (mkShape Square (Num 10) (Num 10)));
         (3%nat, OShape (mkShape Rectangle (Num 22) (Num 10)));
         (4%nat, OShape (mkShape Square (Num 40) (Num 40)))])
     5
     [LogStr "10x20"; LogStr "5x5"; LogStr "10x5"; LogVal (Num 100);
      LogStr "Before stretching, area is: 55";
      LogStr "Expected area: 220"; LogStr "Actual area: 220";
      LogStr "Before stretching, area is: 100";
      LogStr "Expected area: 400"; LogStr "Actual area: 1600"]
     fs []).
Proof. vm_compute. reflexivity. Qed.

End LiskovFacts.

(** Closed examples of the above, and inputs on which the unrestricted
    statements fail. *)
Section LiskovExamples.
Import Liskov.
#[local] Existing Instance plain_format.





(** The square of line 79, made without an argument, then set to 10. *)
Lemma square_setter_restores_invariant_witness :
  let σ := (run (new_Square undefined) (initial ∅)).2 in
  heap σ !! 0%nat = Some (OShape (mkShape Square undefined undefined)) ∧
  run (setWidth 0%nat (Num 10) ≫= λ _, area 0%nat) σ =
    (Normal (Num 100),
     with_heap {[0%nat := OShape (mkShape Square (Num 10) (Num 10))]} σ).
Proof.
  intros σ.
  assert (heap σ !! 0%nat = Some (OShape (mkShape Square undefined undefined)))
    as Hsq by reflexivity.
  split; [exact Hsq|].
  destruct (square_setter_restores_invariant σ 0%nat undefined undefined
              (Num 10) Hsq) as (Hset & _ & _ & _ & Harea & _).
  rewrite run_bind, Hset, Harea. reflexivity.
Defined.

(** The square of line 79 set to [NaN], which is what [stretch] hands to
    the setter of a square made without an argument: both sides hold [NaN],
    and [width == height] is false. *)
Lemma square_setter_NaN_counterexample :
  let σ := (run (new_Square undefined) (initial ∅)).2 in
  ∃ (w h : value) (σ' : world),
    run (setWidth 0%nat NaN ≫= λ _,
           w ← get_width 0%nat; h ← get_height 0%nat; mret (w, h)) σ =
      (Normal (w, h), σ') ∧
    w = NaN ∧ h = NaN ∧
    IsLooselyEqual w h = false.
Proof.
  intros σ. eexists _, _, _. split; [vm_compute; reflexivity|].
  repeat split.
Defined.

End LiskovExamples.

(** ** The journal *)
Section JournalFacts.
Import SingleResponsibility.
Context `{!NumberFormat}.

#[local] Instance key_le_total : Total key_le.
Proof. intros a b. unfold key_le. lia. Qed.

#[local] Instance key_le_trans : Transitive key_le.
Proof. intros a b c. unfold key_le. lia. Qed.

Lemma elem_of_properties_at (o : gmap Z string) (ks : list Z)
    (k : Z) (v : string) :
  (k, v) ∈ properties_at o ks ↔ k ∈ ks ∧ o !! k = Some v.
Proof.
  unfold properties_at. rewrite list_elem_of_omap. split.
  - intros (k' & Hin & Heq). destruct (o !! k') as [v'|] eqn:Hk'; [|done].
    cbn in Heq. by simplify_eq.
  - intros [Hin Hk]. exists k. split; [done|]. by rewrite Hk.
Qed.

Lemma properties_at_snd (o : gmap Z string) (ks : list Z) :
  (properties_at o ks).*2 = omap (λ k, o !! k) ks.
Proof.
  induction ks as [|k ks IH]; [done|].
  unfold properties_at in *. cbn. destruct (o !! k); cbn; by rewrite IH.
Qed.

Lemma properties_at_sorted (o : gmap Z string) (ks : list Z) :
  StronglySorted Z.lt ks →
  StronglySorted key_le (properties_at o ks) ∧ NoDup (properties_at o ks).
Proof.
  induction 1 as [|k ks Hks [IHs IHn] Hall].
  { split; constructor. }
  assert (properties_at o (k :: ks) =
          match o !! k with
          | Some v => (k, v) :: properties_at o ks
          | None => properties_at o ks
          end) as -> by (unfold properties_at; cbn; by destruct (o !! k)).
  destruct (o !! k) as [v|]; [|done].
  rewrite Forall_forall in Hall. split.
  - constructor; [done|]. apply Forall_forall. intros [k' v'] Hin.
    apply elem_of_properties_at in Hin as [Hin _].
    specialize (Hall _ Hin). unfold key_le. cbn. lia.
  - constructor; [|done]. intros Hin.
    apply elem_of_properties_at in Hin as [Hin _].
    specialize (Hall _ Hin). lia.
Qed.

Lemma seqZ_sorted (lo n : Z) : StronglySorted Z.lt (seqZ lo n).
Proof.
  remember (Z.to_nat n) as len eqn:Hlen. revert lo n Hlen.
  induction len as [|len IH]; intros lo n Hlen.
  - rewrite seqZ_nil by lia. constructor.
  - rewrite seqZ_cons by lia. constructor.
    + apply IH. lia.
    + apply Forall_seqZ. lia.
Qed.

(** [Object.values] lists the values by ascending key. *)
Lemma Object_values_ascending (o : gmap Z string) (lo n : Z) :
  (∀ k, is_Some (o !! k) → (lo ≤ k < lo + n)%Z) →
  Object_values o = omap (λ k, o !! k) (seqZ lo n).
Proof.
  intros Hrange. unfold Object_values.
  rewrite <- properties_at_snd. f_equal.
  destruct (properties_at_sorted o (seqZ lo n) (seqZ_sorted lo n))
    as [Hsorted Hnodup].
  assert (∀ x, x ∈ map_to_list o ↔ x ∈ properties_at o (seqZ lo n)) as Hsame.
  { intros [k v]. rewrite elem_of_map_to_list, elem_of_properties_at.
    rewrite elem_of_seqZ. split; [|tauto].
    intros Hk. split; [|done]. apply Hrange. by exists v. }
  apply (StronglySorted_unique_strong key_le).
  - intros [k1 v1] [k2 v2] H1 H2 Hle Hge. unfold key_le in *. cbn in *.
    assert (k1 = k2) as -> by lia. f_equal.
    rewrite merge_sort_Permutation, elem_of_map_to_list in H1.
    apply Hsame in H2. rewrite elem_of_map_to_list in H2. congruence.
  - apply StronglySorted_merge_sort; apply _.
  - done.
  - rewrite merge_sort_Permutation.
    apply NoDup_Permutation; [apply NoDup_map_to_list|done|done].
Qed.

Lemma after_calls_app (cs1 cs2 : list call) (j : Journal) :
  after_calls (cs1 ++ cs2) j = after_calls cs2 (after_calls cs1 j).
Proof. revert j. induction cs1 as [|c cs1 IH]; intros j; [done|apply IH]. Qed.

Lemma texts_app (cs1 cs2 : list call) :
  texts (cs1 ++ cs2) = texts cs1 ++ texts cs2.
Proof. apply omap_app. Qed.

Lemma count_after_call (c : call) (j : Journal) :
  count (after_call c j) = (count j + Z.of_nat (length (texts [c])))%Z.
Proof. destruct c; cbn; lia. Qed.

Lemma count_after_calls (cs : list call) (j : Journal) :
  count (after_calls cs j) = (count j + Z.of_nat (length (texts cs)))%Z.
Proof.
  revert j. induction cs as [|c cs IH]; intros j; cbn [after_calls].
  - cbn. lia.
  - rewrite IH, count_after_call.
    change (c :: cs) with ([c] ++ cs). rewrite texts_app, length_app. lia.
Qed.

Lemma journal_inv_constructor : journal_inv Journal_constructor.
Proof. split; [done|]. intros k [s Hs]. cbn in Hs. done. Qed.

Lemma journal_inv_after_call (c : call) (j : Journal) :
  journal_inv j → journal_inv (after_call c j).
Proof.
  intros [Hcount Hkeys]. destruct c as [text|index]; cbn.
  - split; cbn; [lia|]. intros k [s Hs].
    destruct (decide (k = count j + 1)%Z) as [->|Hne]; [lia|].
    rewrite lookup_insert_ne in Hs by done.
    specialize (Hkeys k (ltac:(eauto))). lia.
  - split; cbn; [done|]. intros k [s Hs].
    destruct (decide (k = index)) as [->|Hne].
    + by rewrite lookup_delete_eq in Hs.
    + rewrite lookup_delete_ne in Hs by done. apply Hkeys. eauto.
Qed.

Lemma journal_inv_after_calls (cs : list call) (j : Journal) :
  journal_inv j → journal_inv (after_calls cs j).
Proof.
  revert j. induction cs as [|c cs IH]; intros j Hj; [done|].
  cbn [after_calls]. by apply IH, journal_inv_after_call.
Qed.

(** A key above [count] has never been stored. *)
Lemma journal_inv_fresh (j : Journal) (k : Z) :
  journal_inv j → (count j < k)%Z → entries j !! k = None.
Proof.
  intros [_ Hkeys] Hk. destruct (entries j !! k) as [s|] eqn:E; [|done].
  specialize (Hkeys k (ltac:(eauto))). lia.
Qed.

(** Each stored entry is the text of the call that made it, behind the
    number of that call. *)
Lemma entries_after_calls (cs : list call) (k : Z) (s : string) :
  entries (after_calls cs Journal_constructor) !! k = Some s →
  ∃ t, texts cs !! Z.to_nat (k - 1) = Some t ∧ (1 ≤ k)%Z ∧
       s = pretty k +:+ ": " +:+ t.
Proof.
  revert k s. induction cs as [|c cs IH] using rev_ind; intros k s Hs.
  { cbn in Hs. done. }
  rewrite after_calls_app in Hs. cbn [after_calls] in Hs.
  set (j := after_calls cs Journal_constructor) in *.
  assert (journal_inv j) as Hj
    by apply journal_inv_after_calls, journal_inv_constructor.
  assert (count j = Z.of_nat (length (texts cs))) as Hcount
    by (subst j; rewrite count_after_calls; cbn; lia).
  rewrite texts_app.
  destruct c as [text|index]; cbn in Hs.
  - destruct (decide (k = count j + 1)%Z) as [->|Hne].
    + rewrite lookup_insert_eq in Hs. exists text. split; [|split].
      * rewrite lookup_app_r by lia.
        replace (Z.to_nat (count j + 1 - 1) - length (texts cs))%nat
          with 0%nat by lia. done.
      * lia.
      * congruence.
    + rewrite lookup_insert_ne in Hs by done.
      destruct (IH _ _ Hs) as (t & Ht & Hk & ->).
      exists t. split; [|done].
      by rewrite lookup_app_l by (by eapply lookup_lt_Some).
  - destruct (decide (k = index)) as [->|Hne].
    + by rewrite lookup_delete_eq in Hs.
    + rewrite lookup_delete_ne in Hs by done.
      destruct (IH _ _ Hs) as (t & Ht & Hk & ->).
      exists t. split; [|done].
      by rewrite lookup_app_l by (by eapply lookup_lt_Some).
Qed.

Lemma toString_in_order (j : Journal) :
  journal_inv j →
  Journal_toString j = join LF (omap (λ k, entries j !! k) (seqZ 1 (count j))).
Proof.
  intros [_ Hkeys]. unfold Journal_toString. f_equal.
  apply Object_values_ascending. intros k Hk. specialize (Hkeys k Hk). lia.
Qed.

(** Running the calls in the heap. *)
Lemma run_load_journal (σ : world) (l : loc) (j : Journal) :
  heap σ !! l = Some (OJournal j) → run (load_journal l) σ = (Normal j, σ).
Proof.
  intros Hl. unfold load_journal. by rewrite run_bind, (run_load _ _ _ Hl).
Qed.

Lemma run_addEntry (σ : world) (l : loc) (j : Journal) (text : string) :
  heap σ !! l = Some (OJournal j) →
  run (addEntry l text) σ =
  (Normal (Journal_addEntry text j).1,
   with_heap (<[l := OJournal (Journal_addEntry text j).2]> (heap σ)) σ).
Proof.
  intros Hl. unfold addEntry.
  by rewrite run_bind, (run_load_journal _ _ _ Hl).
Qed.

Lemma run_removeEntry (σ : world) (l : loc) (j : Journal) (index : Z) :
  heap σ !! l = Some (OJournal j) →
  run (removeEntry l index) σ =
  (Normal (),
   with_heap (<[l := OJournal (Journal_removeEntry index j)]> (heap σ)) σ).
Proof.
  intros Hl. unfold removeEntry.
  by rewrite run_bind, (run_load_journal _ _ _ Hl).
Qed.

Lemma run_toString_journal (σ : world) (l : loc) (j : Journal) :
  heap σ !! l = Some (OJournal j) →
  run (toString l) σ = (Normal (Journal_toString j), σ).
Proof.
  intros Hl. unfold toString. by rewrite run_bind, (run_load _ _ _ Hl).
Qed.

Lemma run_invoke (σ : world) (l : loc) (j : Journal) (c : call) :
  heap σ !! l = Some (OJournal j) →
  run (invoke l c) σ =
  (Normal (), with_heap (<[l := OJournal (after_call c j)]> (heap σ)) σ).
Proof.
  intros Hl. destruct c as [text|index]; cbn [invoke after_call].
  - by rewrite run_bind, (run_addEntry _ _ _ _ Hl).
  - by apply run_removeEntry.
Qed.

Lemma run_invoke_all (σ : world) (l : loc) (j : Journal) (cs : list call) :
  heap σ !! l = Some (OJournal j) →
  run (invoke_all l cs) σ =
  (Normal (), with_heap (<[l := OJournal (after_calls cs j)]> (heap σ)) σ).
Proof.
  revert σ j. induction cs as [|c cs IH]; intros σ j Hl.
  - cbn [invoke_all after_calls]. rewrite run_ret, insert_id by done.
    by destruct σ.
  - cbn [invoke_all after_calls].
    rewrite run_bind, (run_invoke _ _ _ _ Hl).
    erewrite IH by (rewrite heap_with_heap; apply lookup_insert_eq).
    by rewrite heap_with_heap, insert_insert_eq.
Qed.

(** C4.  After any calls, the next [addEntry(text)] is call number [n]: it
    returns [n] and stores ["n: text"] under key [n]; every stored entry is
    the text of the call that made it behind that call's number, and
    [toString] joins the entries by ascending number. *)
Theorem journal_entries_numbered
    (σ : world) (cs : list call) (text : string) :
  let journal := next_loc σ in
  let n := Z.of_nat (S (length (texts cs))) in
  ∃ (σ' : world) (j' : Journal),
    run (new_Journal ≫= λ journal,
           invoke_all journal cs;; addEntry journal text) σ =
      (Normal n, σ') ∧
    heap σ' !! journal = Some (OJournal j') ∧
    count j' = n ∧
    entries j' !! n = Some (pretty n +:+ ": " +:+ text) ∧
    (∀ k s, entries j' !! k = Some s →
       ∃ t, texts (cs ++ [AddEntry text]) !! Z.to_nat (k - 1) = Some t ∧
            (1 ≤ k)%Z ∧ s = pretty k +:+ ": " +:+ t) ∧
    run (toString journal) σ' =
      (Normal (join LF (omap (λ k, entries j' !! k) (seqZ 1 n))), σ').
Proof.
  intros journal n. subst journal. unfold new_Journal.
  rewrite run_new_then. set (journal := next_loc σ).
  set (σ0 := mkWorld _ _ _ _ _).
  assert (heap σ0 !! journal = Some (OJournal Journal_constructor)) as H0
    by apply lookup_insert_eq.
  rewrite run_bind, (run_invoke_all _ _ _ cs H0).
  set (j := after_calls cs Journal_constructor).
  set (σ1 := with_heap _ σ0).
  assert (heap σ1 !! journal = Some (OJournal j)) as H1
    by apply lookup_insert_eq.
  rewrite (run_addEntry _ _ _ text H1).
  set (j' := (Journal_addEntry text j).2).
  assert (j' = after_calls (cs ++ [AddEntry text]) Journal_constructor)
    as Hj' by (by rewrite after_calls_app).
  assert (journal_inv j') as Hinv
    by (rewrite Hj'; apply journal_inv_after_calls, journal_inv_constructor).
  assert (count j = Z.of_nat (length (texts cs))) as Hcount
    by (subst j; rewrite count_after_calls; cbn; lia).
  assert ((Journal_addEntry text j).1 = n) as Hn by (cbn; lia).
  assert (count j' = n) as Hn' by (cbn; lia).
  eexists _, j'. split; [by rewrite Hn|].
  split; [apply lookup_insert_eq|].
  split; [done|].
  split.
  { subst j'. cbn. replace (count j + 1)%Z with n by lia.
    apply lookup_insert_eq. }
  split.
  { intros k s Hs. rewrite Hj' in Hs. by apply entries_after_calls. }
  erewrite run_toString_journal by apply lookup_insert_eq.
  by rewrite (toString_in_order _ Hinv), Hn'.
Qed.

(** C9.  After any calls on a new journal: [count] does not decrease with
    the next call, every key is between 1 and [count], [addEntry] stores
    under a key that is absent now and was absent at every earlier moment
    and keeps all other entries, and [removeEntry] of an absent key changes
    nothing. *)
Theorem journal_key_freshness (σ : world) (cs : list call) :
  let j := after_calls cs Journal_constructor in
  (run (new_Journal ≫= λ journal, invoke_all journal cs) σ).1 = Normal () ∧
  heap (run (new_Journal ≫= λ journal, invoke_all journal cs) σ).2
    !! next_loc σ = Some (OJournal j) ∧
  (∀ c, (count j ≤ count (after_call c j))%Z) ∧
  (∀ k, is_Some (entries j !! k) → (1 ≤ k ≤ count j)%Z) ∧
  (∀ text,
     let k := (Journal_addEntry text j).1 in
     entries j !! k = None ∧
     (∀ cs1 cs2, cs = cs1 ++ cs2 →
        entries (after_calls cs1 Journal_constructor) !! k = None) ∧
     (∀ k' s, entries j !! k' = Some s →
        entries (Journal_addEntry text j).2 !! k' = Some s)) ∧
  (∀ i, entries j !! i = None → Journal_removeEntry i j = j).
Proof.
  intros j.
  assert (journal_inv j) as Hinv
    by apply journal_inv_after_calls, journal_inv_constructor.
  unfold new_Journal. rewrite run_new_then.
  erewrite run_invoke_all by apply lookup_insert_eq.
  split; [done|]. split; [apply lookup_insert_eq|].
  split; [intros c; rewrite count_after_call; lia|].
  split; [apply Hinv|].
  split.
  - intros text. change (Journal_addEntry text j).1 with (count j + 1)%Z.
    split; [apply journal_inv_fresh; [done|lia]|].
    split.
    + intros cs1 cs2 Hcs. apply journal_inv_fresh.
      * apply journal_inv_after_calls, journal_inv_constructor.
      * subst j. rewrite Hcs, after_calls_app, !count_after_calls. lia.
    + intros k' s Hs. cbn. rewrite lookup_insert_ne; [done|].
      intros <-. rewrite journal_inv_fresh in Hs; [done..|lia].
  - intros i Hi. unfold Journal_removeEntry.
    rewrite delete_id by done. by destruct j.
Qed.

(** One entry added and removed again: removing it once more is idle, and
    the next key is 2, not 1. *)
Lemma journal_key_freshness_witness :
  let j := after_calls [AddEntry "a"; RemoveEntry 1] Journal_constructor in
  entries j !! 1%Z = None ∧
  Journal_removeEntry 1 j = j ∧
  (Journal_addEntry "b" j).1 = 2%Z.
Proof.
  intros j.
  assert (entries j !! 1%Z = None) as Habsent by (vm_compute; reflexivity).
  split; [exact Habsent|]. split; [|reflexivity].
  destruct (journal_key_freshness (initial ∅) [AddEntry "a"; RemoveEntry 1])
    as (_ & _ & _ & _ & _ & Hidle).
  exact (Hidle 1%Z Habsent).
Defined.

End JournalFacts.

Section JournalExamples.
Import SingleResponsibility.
#[local] Existing Instance plain_format.

(** The two entries of the script. *)
Lemma journal_entries_numbered_witness :
  ∃ (σ' : world) (j' : Journal),
    run (new_Journal ≫= λ journal,
           invoke_all journal [AddEntry "Today was a great day!"];;
           addEntry journal "I made a new friend today") (initial ∅) =
      (Normal 2%Z, σ') ∧
    entries j' !! 2%Z = Some "2: I made a new friend today" ∧
    run (toString 0%nat) σ' =
      (Normal (join LF ["1: Today was a great day!";
                        "2: I made a new friend today"]), σ').
Proof.
  destruct (journal_entries_numbered (initial ∅)
              [AddEntry "Today was a great day!"]
              "I made a new friend today")
    as (σ' & j' & Hrun & Hheap & _ & Hlast & _ & Hstr).
  exists σ', j'. split; [exact Hrun|]. split; [exact Hlast|].
  change (next_loc (initial ∅)) with 0%nat in Hstr, Hheap.
  rewrite Hstr. f_equal. f_equal.
  assert (σ' = (run (new_Journal ≫= λ journal,
           invoke_all journal [AddEntry "Today was a great day!"];;
           addEntry journal "I made a new friend today") (initial ∅)).2)
    as Hσ' by (by rewrite Hrun).
  rewrite Hσ' in Hheap. vm_compute in Hheap.
  injection Hheap as <-. vm_compute. reflexivity.
Defined.

End JournalExamples.

(** ** Persistence *)
Section PersistenceFacts.
Import SingleResponsibility.
Context `{!NumberFormat}.
Variable write_error : string → string → option write_failure.

Lemma run_writeFileSync (σ : world) (path data : string) :
  run (writeFileSync write_error path data) σ =
  match write_error path data with
  | None =>
      (Normal (),
       mkWorld (heap σ) (next_loc σ) (console σ)
               (<[path := data]> (files σ)) (fs_calls σ ++ [(path, data)]))
  | Some failure =>
      (Throw (FsError path (failure_message failure)),
       mkWorld (heap σ) (next_loc σ) (console σ)
               (files_after_failure failure path data (files σ))
               (fs_calls σ ++ [(path, data)]))
  end.
Proof. reflexivity. Qed.

Lemma run_saveToFile (σ : world) (journal : loc) (j : Journal)
    (fileName : string) :
  heap σ !! journal = Some (OJournal j) →
  run (saveToFile write_error journal fileName) σ =
  run (writeFileSync write_error fileName (Journal_toString j)) σ.
Proof.
  intros Hj. unfold saveToFile.
  by rewrite run_bind, (run_toString_journal _ _ _ Hj).
Qed.

(** The script, up to its last statement. *)
Lemma run_single_responsibility (fs : gmap string string) :
  run (Scripts.single_responsibility write_error) (initial fs) =
  run (writeFileSync write_error "./journal.txt"
         (join LF ["1: Today was a great day!";
                   "2: I made a new friend today"]))
      (mkWorld
         {[0%nat := OJournal
                      (after_calls [AddEntry "Today was a great day!";
                                    AddEntry "I made a new friend today"]
                                   Journal_constructor)]}
         1
         [LogStr (join LF ["1: Today was a great day!";
                           "2: I made a new friend today"])]
         fs []).
Proof. vm_compute. reflexivity. Qed.

(** C5.  The single-responsibility script calls the file system once, with
    the path ["./journal.txt"] and the journal's text, and when the call
    succeeds that file holds exactly the text and no other file has
    changed; [saveToFile] hands [fileName] and the result of [toString] to
    that one call and, when it succeeds, leaves that text in that file; the
    other four files never call the file system and leave all files as
    they were. *)
Theorem only_file_write (fs : gmap string string) :
  let path := "./journal.txt" in
  let text := join LF ["1: Today was a great day!";
                       "2: I made a new friend today"] in
  let result := run (Scripts.single_responsibility write_error) (initial fs) in
  fs_calls result.2 = [(path, text)] ∧
  match write_error path text with
  | None => result.1 = Normal () ∧ files result.2 = <[path := text]> fs
  | Some failure =>
      files result.2 = files_after_failure failure path text fs
  end ∧
  (∀ (σ : world) (journal : loc) (j : Journal) (fileName : string),
     let σ0 := with_heap (<[journal := OJournal j]> (heap σ)) σ in
     let saved := run (saveToFile write_error journal fileName) σ0 in
     fs_calls saved.2 = fs_calls σ ++ [(fileName, Journal_toString j)] ∧
     match write_error fileName (Journal_toString j) with
     | None =>
         saved.1 = Normal () ∧
         files saved.2 = <[fileName := Journal_toString j]> (files σ)
     | Some failure =>
         files saved.2 =
           files_after_failure failure fileName (Journal_toString j)
             (files σ)
     end) ∧
  Forall (λ script : M unit,
            fs_calls (run script (initial fs)).2 = [] ∧
            files (run script (initial fs)).2 = fs)
         [Scripts.liskov_prefix; Scripts.liskov;
          Scripts.open_closed_prefix; Scripts.open_closed].
Proof.
  intros path text result. split; [|split; [|split]].
  - subst result. rewrite run_single_responsibility, run_writeFileSync.
    by destruct (write_error _ _).
  - subst result. rewrite run_single_responsibility, run_writeFileSync.
    fold path text. by destruct (write_error path text).
  - intros σ journal j fileName σ0 saved. subst saved.
    rewrite (run_saveToFile σ0 journal j) by apply lookup_insert_eq.
    rewrite run_writeFileSync.
    by destruct (write_error fileName (Journal_toString j)).
  - repeat constructor.
Qed.

(** C6.  A run of the single-responsibility script makes exactly one call
    of [fs.writeFileSync].  When the call succeeds the file holds the whole
    text and nothing else changed.  When it fails the run ends there with
    the exception: there is no second call, and the file is left as the
    failed call left it, untouched if it could not be opened, otherwise
    holding the part that was written; nothing puts the old content
    back. *)
Theorem one_whole_file_write (fs : gmap string string) :
  let path := "./journal.txt" in
  let data := join LF ["1: Today was a great day!";
                       "2: I made a new friend today"] in
  let result := run (Scripts.single_responsibility write_error) (initial fs) in
  length (fs_calls result.2) = 1%nat ∧
  fs_calls result.2 = [(path, data)] ∧
  match write_error path data with
  | None =>
      result.1 = Normal () ∧
      files result.2 = <[path := data]> fs ∧
      files result.2 !! path = Some data
  | Some failure =>
      result.1 = Throw (FsError path (failure_message failure)) ∧
      files result.2 = files_after_failure failure path data fs ∧
      files result.2 !! path =
        match failure with
        | OpenFailed _ => fs !! path
        | WriteFailed _ written => Some (String.substring 0 written data)
        end
  end.
Proof.
  intros path data result. subst result.
  rewrite run_single_responsibility, run_writeFileSync.
  fold path data. destruct (write_error path data) as [failure|]; cbn.
  - repeat split. destruct failure; cbn; [done|apply lookup_insert_eq].
  - repeat split. apply lookup_insert_eq.
Qed.

(** C7.  When the write fails, [saveToFile] ends with the exception, every
    statement after it is skipped, and the heap, with the journal in it, is
    as it was before the call, while the file is as the failed write left
    it; the script then ends with that exception and the journal still
    holds its two entries. *)
Theorem write_failure_propagates
    (σ : world) (journal : loc) (j : Journal) (fileName : string)
    (failure : write_failure) :
  write_error fileName (Journal_toString j) = Some failure →
  let σ0 := with_heap (<[journal := OJournal j]> (heap σ)) σ in
  let σ' := mkWorld (heap σ0) (next_loc σ0) (console σ0)
              (files_after_failure failure fileName (Journal_toString j)
                 (files σ0))
              (fs_calls σ0 ++ [(fileName, Journal_toString j)]) in
  let e := FsError fileName (failure_message failure) in
  run (saveToFile write_error journal fileName) σ0 = (Throw e, σ') ∧
  (∀ (B : Type) (k : unit → M B),
     run (saveToFile write_error journal fileName ≫= k) σ0 = (Throw e, σ')) ∧
  heap σ' !! journal = Some (OJournal j) ∧
  (∀ (fs : gmap string string),
     let result :=
       run (Scripts.single_responsibility write_error) (initial fs) in
     let written :=
       after_calls [AddEntry "Today was a great day!";
                    AddEntry "I made a new friend today"]
                   Journal_constructor in
     match write_error "./journal.txt" (Journal_toString written) with
     | Some f =>
         result.1 = Throw (FsError "./journal.txt" (failure_message f)) ∧
         heap result.2 = {[0%nat := OJournal written]} ∧
         files result.2 =
           files_after_failure f "./journal.txt" (Journal_toString written)
             fs
     | None => result.1 = Normal ()
     end).
Proof.
  intros Hfail σ0 σ' e.
  assert (run (saveToFile write_error journal fileName) σ0 = (Throw e, σ'))
    as Hrun.
  { rewrite (run_saveToFile σ0 journal j) by apply lookup_insert_eq.
    by rewrite run_writeFileSync, Hfail. }
  split; [done|]. split; [|split].
  - intros B k. by rewrite run_bind, Hrun.
  - apply lookup_insert_eq.
  - intros fs result written. subst result.
    rewrite run_single_responsibility, run_writeFileSync.
    change (join LF _) with (Journal_toString written).
    generalize (Journal_toString written). intros data.
    destruct (write_error "./journal.txt" data); done.
Qed.

End PersistenceFacts.

Section PersistenceExamples.
Import SingleResponsibility.
#[local] Existing Instance plain_format.

(** A disk that fills up as soon as the file has been opened: the old
    content is gone, the journal is not. *)
Lemma write_failure_propagates_witness :
  let full : string → string → option write_failure :=
    λ _ _, Some (WriteFailed "ENOSPC" 0) in
  let j := after_calls [AddEntry "Today was a great day!";
                        AddEntry "I made a new friend today"]
                       Journal_constructor in
  let result :=
    run (Scripts.single_responsibility full)
        (initial {["./journal.txt" := "old text"]}) in
  full "./journal.txt" (Journal_toString j) =
    Some (WriteFailed "ENOSPC" 0) ∧
  result.1 = Throw (FsError "./journal.txt" "ENOSPC") ∧
  heap result.2 = {[0%nat := OJournal j]} ∧
  files result.2 !! "./journal.txt" = Some "".
Proof.
  intros full j result.
  assert (full "./journal.txt" (Journal_toString j) =
          Some (WriteFailed "ENOSPC" 0)) as Hfail by reflexivity.
  split; [exact Hfail|].
  destruct (write_failure_propagates full (initial ∅) 0%nat j
              "./journal.txt" _ Hfail) as (_ & _ & _ & Hscript).
  destruct (Hscript {["./journal.txt" := "old text"]})
    as (Hthrow & Hheap & Hfiles).
  split; [exact Hthrow|]. split; [exact Hheap|].
  subst result. rewrite Hfiles. reflexivity.
Defined.

End PersistenceExamples.

(** ** Product filters *)
Section FilterFacts.
Import OpenClosed.

Lemma strict_eq_spec (a b : string) : strict_eq a b = true ↔ a = b.
Proof. apply String.eqb_eq. Qed.

Lemma elem_of_Array_filter {A} (f : A → bool) (xs : list A) (x : A) :
  x ∈ Array_filter f xs ↔ x ∈ xs ∧ f x = true.
Proof.
  unfold Array_filter. rewrite !list_elem_of_In. apply filter_In.
Qed.

(** What the specification filter keeps. *)
Lemma elem_of_Filter2_filter_color (items : list Product) (c : string)
    (p : Product) :
  p ∈ Filter2_filter items (new_ColorSpecification c) ↔
  p ∈ items ∧ Data.color p = c.
Proof.
  unfold Filter2_filter. rewrite elem_of_Array_filter.
  unfold isSatisfied, ColorSpecification_isSatisfied. cbn.
  by rewrite strict_eq_spec.
Qed.

(** C8.  The two methods of [ProductFilter] return the very list that
    [Filter2.filter] returns for the matching specification. *)
Theorem filters_equivalent (products : list Product) (c s : string) :
  filterByColor products c =
    Filter2_filter products (new_ColorSpecification c) ∧
  filterBySize products s =
    Filter2_filter products (new_SizeSpecification s).
Proof.
  split.
  - unfold filterByColor, Filter2_filter. f_equal.
  - unfold filterBySize, Filter2_filter. f_equal.
Qed.

(** What the open/closed script prints. *)
Lemma open_closed_console (fs : gmap string string) :
  console (run Scripts.open_closed (initial fs)).2 =
  [LogProducts [book];
   LogStr "Green products based on the new filter:";
   LogProducts [surfboard]].
Proof. reflexivity. Qed.

End FilterFacts.

(** * Further properties of the code *)

(** ** Setters, direct assignment and [stretch] on any shape *)
Section ShapeFacts.
Import Liskov.
Context `{!NumberFormat}.

Lemma run_assign_width (σ : world) (l : loc) (s : Shape) (v : value) :
  heap σ !! l = Some (OShape s) →
  run (assign_width l v) σ =
  (Normal (),
   with_heap (<[l := OShape (mkShape (proto s) v (height s))]> (heap σ)) σ).
Proof.
  intros Hl. unfold assign_width.
  by rewrite run_bind, (run_load_shape _ _ _ Hl), run_store.
Qed.

(** On a plain rectangle each setter touches its own side only, so the two
    calls can be made in either order. *)
Theorem rectangle_setters_commute
    (σ : world) (rect : loc) (w h a b : value) :
  heap σ !! rect = Some (OShape (mkShape Rectangle w h)) →
  let σ' := with_heap (<[rect := OShape (mkShape Rectangle a b)]> (heap σ)) σ in
  run (setWidth rect a) σ =
    (Normal (),
     with_heap (<[rect := OShape (mkShape Rectangle a h)]> (heap σ)) σ) ∧
  run (setHeight rect b) σ =
    (Normal (),
     with_heap (<[rect := OShape (mkShape Rectangle w b)]> (heap σ)) σ) ∧
  run (setWidth rect a;; setHeight rect b) σ = (Normal (), σ') ∧
  run (setHeight rect b;; setWidth rect a) σ = (Normal (), σ') ∧
  run (area rect) σ' = (Normal (mul a b), σ').
Proof.
  intros Hrect σ'.
  split; [by rewrite (run_setWidth _ _ _ _ Hrect)|].
  split; [by rewrite (run_setHeight _ _ _ _ Hrect)|].
  split; [|split].
  - rewrite run_bind, (run_setWidth _ _ _ _ Hrect).
    erewrite run_setHeight by (rewrite heap_with_heap; apply lookup_insert_eq).
    subst σ'. unfold with_heap. cbn. by rewrite insert_insert_eq.
  - rewrite run_bind, (run_setHeight _ _ _ _ Hrect).
    erewrite run_setWidth by (rewrite heap_with_heap; apply lookup_insert_eq).
    subst σ'. unfold with_heap. cbn. by rewrite insert_insert_eq.
  - erewrite run_area by apply lookup_insert_eq. done.
Qed.

(** On a square the later of two setter calls decides both sides, so the
    two orders agree only when the two values are the same. *)
Theorem square_setters_last_wins
    (σ : world) (sq : loc) (w h a b : value) :
  heap σ !! sq = Some (OShape (mkShape Square w h)) →
  run (setWidth sq a;; setHeight sq b) σ =
    (Normal (),
     with_heap (<[sq := OShape (mkShape Square b b)]> (heap σ)) σ) ∧
  run (setHeight sq b;; setWidth sq a) σ =
    (Normal (),
     with_heap (<[sq := OShape (mkShape Square a a)]> (heap σ)) σ) ∧
  (run (setWidth sq a;; setHeight sq b) σ =
   run (setHeight sq b;; setWidth sq a) σ ↔ a = b).
Proof.
  intros Hsq.
  assert (run (setWidth sq a;; setHeight sq b) σ =
          (Normal (),
           with_heap (<[sq := OShape (mkShape Square b b)]> (heap σ)) σ))
    as Hwh.
  { rewrite run_bind, (run_setWidth _ _ _ _ Hsq).
    erewrite run_setHeight by (rewrite heap_with_heap; apply lookup_insert_eq).
    unfold with_heap. cbn. by rewrite insert_insert_eq. }
  assert (run (setHeight sq b;; setWidth sq a) σ =
          (Normal (),
           with_heap (<[sq := OShape (mkShape Square a a)]> (heap σ)) σ))
    as Hhw.
  { rewrite run_bind, (run_setHeight _ _ _ _ Hsq).
    erewrite run_setWidth by (rewrite heap_with_heap; apply lookup_insert_eq).
    unfold with_heap. cbn. by rewrite insert_insert_eq. }
  split; [done|]. split; [done|].
  rewrite Hwh, Hhw. split.
  - intros Heq.
    assert (heap (with_heap (<[sq := OShape (mkShape Square b b)]> (heap σ)) σ)
              !! sq =
            heap (with_heap (<[sq := OShape (mkShape Square a a)]> (heap σ)) σ)
              !! sq) as Hlook by congruence.
    rewrite !heap_with_heap, !lookup_insert_eq in Hlook. congruence.
  - by intros ->.
Qed.

(** The direct assignment of line 45 writes the width alone: a square of
    side [s] then holds [v] and [s], prints as such, and has area [v * s]. *)
Theorem square_direct_assignment (σ : world) (s v : value) :
  let sq := next_loc σ in
  let σ' := mkWorld (<[sq := OShape (mkShape Square v s)]> (heap σ))
              (S (next_loc σ)) (console σ) (files σ) (fs_calls σ) in
  run (new_Square s ≫= λ sq, assign_width sq v) σ = (Normal (), σ') ∧
  run (toString sq) σ' = (Normal (ToString v +:+ "x" +:+ ToString s), σ') ∧
  run (get_width sq) σ' = (Normal v, σ') ∧
  run (get_height sq) σ' = (Normal s, σ') ∧
  run (area sq) σ' = (Normal (mul v s), σ').
Proof.
  intros sq σ'.
  assert (heap σ' !! sq = Some (OShape (mkShape Square v s))) as Hsq
    by apply lookup_insert_eq.
  split.
  - unfold new_Square. rewrite run_new_then.
    erewrite run_assign_width by apply lookup_insert_eq.
    subst σ' sq. unfold with_heap. cbn. by rewrite insert_insert_eq.
  - rewrite (run_toString _ _ _ Hsq), (run_get_width _ _ _ Hsq),
      (run_get_height _ _ _ Hsq), (run_area _ _ _ Hsq). done.
Qed.

(** [stretch] on a square in any state reads the width alone: a square
    holding the safe integers [w] and [h] (with [4 * w * h] and
    [16 * w * w] safe) ends with both sides [4 * w], while the expected
    area it prints is [4 * w * h]. *)
Theorem stretch_square_any_state (σ : world) (sq : loc) (w h : Z) :
  heap σ !! sq = Some (OShape (mkShape Square (Num w) (Num h))) →
  safe h → safe (4 * (w * h)) → safe (16 * (w * w)) →
  run (stretch sq) σ =
  (Normal (),
   mkWorld
     (<[sq := OShape (mkShape Square (Num (4 * w)) (Num (4 * w)))]> (heap σ))
     (next_loc σ)
     (console σ ++
      [LogStr ("Before stretching, area is: " +:+ pretty (w * h)%Z);
       LogStr ("Expected area: " +:+ pretty (4 * (w * h))%Z);
       LogStr ("Actual area: " +:+ pretty (16 * (w * w))%Z)])
     (files σ) (fs_calls σ)).
Proof. apply run_stretch_Square. Qed.

(** [stretch] ends normally on every shape, prints three lines, and changes
    nothing but the shape it was given, which keeps its class. *)
Theorem stretch_frame (σ : world) (rect : loc) (s : Shape) :
  heap σ !! rect = Some (OShape s) →
  ∃ σ' s',
    run (stretch rect) σ = (Normal (), σ') ∧
    heap σ' !! rect = Some (OShape s') ∧ proto s' = proto s ∧
    (∀ l, l ≠ rect → heap σ' !! l = heap σ !! l) ∧
    (∃ l1 l2 l3, console σ' = console σ ++ [l1; l2; l3]) ∧
    next_loc σ' = next_loc σ ∧ files σ' = files σ ∧
    fs_calls σ' = fs_calls σ.
Proof.
  intros Hrect. rewrite (run_stretch _ _ _ Hrect).
  eexists _, _. split; [reflexivity|]. cbn [heap console next_loc files fs_calls].
  split; [apply lookup_insert_eq|].
  split; [by destruct s as [[] ? ?]|].
  split; [intros l Hl; by rewrite lookup_insert_ne|].
  split; [by eexists _, _, _|done].
Qed.

(** A shape made without arguments holds [undefined] twice; [stretch] then
    leaves [NaN] in both sides and prints [NaN] three times. *)
Theorem stretch_without_sides (σ : world) (rect : loc) (c : class) :
  heap σ !! rect = Some (OShape (mkShape c undefined undefined)) →
  run (stretch rect) σ =
  (Normal (),
   mkWorld (<[rect := OShape (mkShape c NaN NaN)]> (heap σ)) (next_loc σ)
     (console σ ++
      [LogStr "Before stretching, area is: NaN";
       LogStr "Expected area: NaN";
       LogStr "Actual area: NaN"])
     (files σ) (fs_calls σ)).
Proof.
  intros Hrect. rewrite (run_stretch _ _ _ Hrect). by destruct c.
Qed.

End ShapeFacts.

Section ShapeExamples.
Import Liskov.
#[local] Existing Instance plain_format.

Lemma rectangle_setters_commute_witness :
  let σ := (run (new_Rectangle (Num 11) (Num 5)) (initial ∅)).2 in
  heap σ !! 0%nat = Some (OShape (mkShape Rectangle (Num 11) (Num 5))) ∧
  run (setHeight 0%nat (Num 3);; setWidth 0%nat (Num 2)) σ =
    run (setWidth 0%nat (Num 2);; setHeight 0%nat (Num 3)) σ.
Proof.
  intros σ.
  assert (heap σ !! 0%nat =
          Some (OShape (mkShape Rectangle (Num 11) (Num 5)))) as Hrect
    by reflexivity.
  split; [exact Hrect|].
  destruct (rectangle_setters_commute σ 0%nat (Num 11) (Num 5)
              (Num 2) (Num 3) Hrect) as (_ & _ & Hwh & Hhw & _).
  rewrite Hwh, Hhw. reflexivity.
Defined.

Lemma square_setters_last_wins_witness :
  let σ := (run (new_Square (Num 5)) (initial ∅)).2 in
  heap σ !! 0%nat = Some (OShape (mkShape Square (Num 5) (Num 5))) ∧
  run (setWidth 0%nat (Num 2);; setHeight 0%nat (Num 3);; area 0%nat) σ =
    (Normal (Num 9),
     with_heap {[0%nat := OShape (mkShape Square (Num 3) (Num 3))]} σ).
Proof.
  intros σ.
  assert (heap σ !! 0%nat = Some (OShape (mkShape Square (Num 5) (Num 5))))
    as Hsq by reflexivity.
  split; [exact Hsq|].
  destruct (square_setters_last_wins σ 0%nat (Num 5) (Num 5)
              (Num 2) (Num 3) Hsq) as (Hwh & _ & _).
  change (run ((setWidth 0%nat (Num 2);; setHeight 0%nat (Num 3)) ≫=
               λ _, area 0%nat) σ = (Normal (Num 9),
     with_heap {[0%nat := OShape (mkShape Square (Num 3) (Num 3))]} σ)).
  rewrite run_bind, Hwh. reflexivity.
Defined.

(** A square whose width was assigned 10 over a side of 5. *)
Lemma stretch_square_any_state_witness :
  let σ := (run (new_Square (Num 5) ≫= λ sq, assign_width sq (Num 10))
              (initial ∅)).2 in
  heap σ !! 0%nat = Some (OShape (mkShape Square (Num 10) (Num 5))) ∧
  safe 5 ∧ safe (4 * (10 * 5)) ∧ safe (16 * (10 * 10)) ∧
  (run (stretch 0%nat) σ).1 = Normal () ∧
  console (run (stretch 0%nat) σ).2 =
    [LogStr "Before stretching, area is: 50";
     LogStr "Expected area: 200";
     LogStr "Actual area: 1600"].
Proof.
  intros σ.
  assert (heap σ !! 0%nat = Some (OShape (mkShape Square (Num 10) (Num 5))))
    as Hsq by reflexivity.
  assert (safe 5) as Hh by reflexivity.
  assert (safe (4 * (10 * 5))) as Hwh by reflexivity.
  assert (safe (16 * (10 * 10))) as Hww by reflexivity.
  split; [exact Hsq|]. split; [exact Hh|]. split; [exact Hwh|].
  split; [exact Hww|].
  rewrite (stretch_square_any_state σ 0%nat 10 5 Hsq Hh Hwh Hww).
  split; reflexivity.
Defined.

(** A rectangle beside a square: stretching the square leaves the
    rectangle as it was. *)
Lemma stretch_frame_witness :
  let σ := (run (new_Rectangle (Num 11) (Num 5);; new_Square (Num 10))
              (initial ∅)).2 in
  heap σ !! 1%nat = Some (OShape (mkShape Square (Num 10) (Num 10))) ∧
  heap (run (stretch 1%nat) σ).2 !! 0%nat =
    Some (OShape (mkShape Rectangle (Num 11) (Num 5))).
Proof.
  intros σ.
  assert (heap σ !! 1%nat = Some (OShape (mkShape Square (Num 10) (Num 10))))
    as Hsq by reflexivity.
  split; [exact Hsq|].
  destruct (stretch_frame σ 1%nat _ Hsq)
    as (σ' & s' & Hrun & _ & _ & Hother & _).
  rewrite Hrun. cbn [snd]. rewrite Hother by discriminate.
  reflexivity.
Defined.

(** The square of line 79, before any setter is called. *)
Lemma stretch_without_sides_witness :
  let σ := (run (new_Square undefined) (initial ∅)).2 in
  heap σ !! 0%nat = Some (OShape (mkShape Square undefined undefined)) ∧
  run (stretch 0%nat ≫= λ _, area 0%nat) σ =
    (Normal NaN,
     mkWorld {[0%nat := OShape (mkShape Square NaN NaN)]} 1
       [LogStr "Before stretching, area is: NaN";
        LogStr "Expected area: NaN";
        LogStr "Actual area: NaN"] ∅ []).
Proof.
  intros σ.
  assert (heap σ !! 0%nat = Some (OShape (mkShape Square undefined undefined)))
    as Hsq by reflexivity.
  split; [exact Hsq|].
  rewrite run_bind, (stretch_without_sides σ 0%nat Square Hsq).
  reflexivity.
Defined.

End ShapeExamples.

(** ** Journals over their lifetime *)
Section JournalLifetime.
Import SingleResponsibility.
Context `{!NumberFormat}.

(** Looking up a run of keys that avoids [c] does not see an entry stored
    under [c]. *)
Lemma omap_lookup_insert_fresh (o : gmap Z string) (c : Z) (e : string)
    (ks : list Z) :
  c ∉ ks →
  omap (λ k, <[c := e]> o !! k) ks = omap (λ k, o !! k) ks.
Proof.
  induction ks as [|k ks IH]; [done|].
  intros Hc. apply not_elem_of_cons in Hc as [Hne Hc].
  cbn. rewrite lookup_insert_ne by done. by rewrite IH.
Qed.

Lemma omap_lookup_delete_other (o : gmap Z string) (i : Z) (ks : list Z) :
  i ∉ ks →
  omap (λ k, delete i o !! k) ks = omap (λ k, o !! k) ks.
Proof.
  induction ks as [|k ks IH]; [done|].
  intros Hi. apply not_elem_of_cons in Hi as [Hne Hi].
  cbn. rewrite lookup_delete_ne by done. by rewrite IH.
Qed.

Lemma texts_AddEntry (ts : list string) : texts (AddEntry <$> ts) = ts.
Proof.
  induction ts as [|t ts IH]; [done|]. unfold texts in *. cbn. by rewrite IH.
Qed.

Lemma length_omap_le {A B} (f : A → option B) (l : list A) :
  (length (omap f l) ≤ length l)%nat.
Proof. induction l as [|x l IH]; cbn; [lia|]. destruct (f x); cbn; lia. Qed.

(** The values of a journal that only ever had entries added. *)
Lemma Object_values_add_only (ts : list string) :
  Object_values (entries (after_calls (AddEntry <$> ts) Journal_constructor)) =
  imap (λ i t, pretty (Z.of_nat (S i)) +:+ ": " +:+ t) ts.
Proof.
  induction ts as [|t ts IH] using rev_ind; [done|].
  rewrite fmap_app, after_calls_app. cbn [fmap list_fmap after_calls after_call].
  set (j := after_calls (AddEntry <$> ts) Journal_constructor) in *.
  assert (journal_inv j) as Hj
    by apply journal_inv_after_calls, journal_inv_constructor.
  assert (count j = Z.of_nat (length ts)) as Hcount.
  { subst j. rewrite count_after_calls, texts_AddEntry. cbn. lia. }
  assert (journal_inv (Journal_addEntry t j).2) as Hj'
    by apply (journal_inv_after_call (AddEntry t)), Hj.
  rewrite (Object_values_ascending _ 1 (Z.of_nat (S (length ts)))).
  2:{ intros k Hk. destruct Hj' as [_ Hkeys]. specialize (Hkeys k Hk).
      cbn in Hkeys. lia. }
  rewrite seqZ_S, omap_app, imap_app. cbn [snd Journal_addEntry entries count].
  rewrite Hcount. f_equal.
  - rewrite omap_lookup_insert_fresh by (rewrite elem_of_seqZ; lia).
    rewrite <- IH. symmetry. apply Object_values_ascending.
    intros k Hk. destruct Hj as [_ Hkeys]. specialize (Hkeys k Hk). lia.
  - cbn. replace (1 + Z.of_nat (length ts))%Z
      with (Z.of_nat (length ts) + 1)%Z by lia.
    rewrite lookup_insert_eq. cbn.
    replace (Z.of_nat (S (length ts + 0))) with (Z.of_nat (length ts) + 1)%Z
      by lia.
    done.
Qed.

(** A journal that only had the texts [ts] added prints them in the order
    given, one per line, numbered from 1; with no text it prints nothing. *)
Theorem journal_add_only (σ : world) (ts : list string) :
  (run (new_Journal ≫= λ journal,
          invoke_all journal (AddEntry <$> ts);; toString journal) σ).1 =
  Normal (join LF (imap (λ i t, pretty (Z.of_nat (S i)) +:+ ": " +:+ t) ts)).
Proof.
  unfold new_Journal. rewrite run_new_then.
  rewrite run_bind.
  erewrite run_invoke_all by apply lookup_insert_eq.
  erewrite run_toString_journal
    by (rewrite heap_with_heap; apply lookup_insert_eq).
  cbn [fst]. unfold Journal_toString. by rewrite Object_values_add_only.
Qed.

(** Adding an entry and removing it under the number returned brings the
    entries and the printed text back, but not the counter: the number is
    spent. *)
Theorem add_then_remove (cs : list call) (text : string) :
  let j := after_calls cs Journal_constructor in
  let added := Journal_addEntry text j in
  Journal_removeEntry added.1 added.2 = mkJournal (count j + 1) (entries j) ∧
  Journal_toString (Journal_removeEntry added.1 added.2) =
    Journal_toString j ∧
  (Journal_addEntry text (Journal_removeEntry added.1 added.2)).1 =
    (added.1 + 1)%Z.
Proof.
  intros j added.
  assert (journal_inv j) as Hj
    by apply journal_inv_after_calls, journal_inv_constructor.
  assert (Journal_removeEntry added.1 added.2 =
          mkJournal (count j + 1) (entries j)) as Heq.
  { subst added. unfold Journal_removeEntry. cbn. f_equal.
    apply delete_insert_id, journal_inv_fresh; [done|lia]. }
  rewrite Heq. split; [done|]. split; [done|]. reflexivity.
Qed.

(** A number that was issued and then removed never holds an entry again,
    whatever calls follow. *)
Theorem removed_number_never_returns
    (j : Journal) (i : Z) (cs : list call) :
  (i ≤ count j)%Z →
  entries (after_calls cs (Journal_removeEntry i j)) !! i = None.
Proof.
  intros Hi.
  assert (∀ j', (i ≤ count j')%Z → entries j' !! i = None →
                entries (after_calls cs j') !! i = None) as Hkeep.
  { induction cs as [|c cs IH]; intros j' Hcount Hnone; [done|].
    cbn [after_calls]. apply IH.
    - rewrite count_after_call. lia.
    - destruct c as [text|index]; cbn.
      + rewrite lookup_insert_ne by lia. done.
      + rewrite lookup_delete. case_decide; done. }
  apply Hkeep; [done|]. cbn. apply lookup_delete_eq.
Qed.

(** Two entries, the first removed, two more added: number 1 stays empty
    and the new entries are numbered 3 and 4. *)
Lemma removed_number_never_returns_witness :
  let j := after_calls [AddEntry "a"; AddEntry "b"] Journal_constructor in
  let later := after_calls [AddEntry "c"; AddEntry "d"]
                 (Journal_removeEntry 1 j) in
  (1 ≤ count j)%Z ∧
  entries later !! 1%Z = None ∧
  Journal_toString later = join LF ["2: b"; "3: c"; "4: d"].
Proof.
  intros j later.
  assert (1 ≤ count j)%Z as Hissued by (vm_compute; discriminate).
  split; [exact Hissued|]. split.
  - exact (removed_number_never_returns j 1
             [AddEntry "c"; AddEntry "d"] Hissued).
  - vm_compute. reflexivity.
Defined.

(** Removing a stored entry takes exactly its value out of
    [Object.values], hence its line out of the text; the values before and
    after it stay, in their order. *)
Theorem removeEntry_drops_one_line
    (cs : list call) (i : Z) (s : string) :
  let j := after_calls cs Journal_constructor in
  entries j !! i = Some s →
  ∃ before after : list string,
    Object_values (entries j) = before ++ s :: after ∧
    Object_values (entries (Journal_removeEntry i j)) = before ++ after ∧
    Journal_toString j = join LF (before ++ s :: after) ∧
    Journal_toString (Journal_removeEntry i j) = join LF (before ++ after).
Proof.
  intros j Hs.
  assert (journal_inv j) as [Hcount Hkeys]
    by apply journal_inv_after_calls, journal_inv_constructor.
  assert (1 ≤ i ≤ count j)%Z as Hi by (apply Hkeys; eauto).
  assert (seqZ 1 (count j) =
          seqZ 1 (i - 1) ++ [i] ++ seqZ (i + 1) (count j - i)) as Hsplit.
  { replace (count j) with ((i - 1) + (1 + (count j - i)))%Z at 1 by lia.
    rewrite seqZ_app by lia. f_equal.
    replace (1 + (i - 1))%Z with i by lia.
    rewrite seqZ_cons by lia. cbn. f_equal. f_equal; lia. }
  assert (Object_values (entries j) =
          omap (λ k, entries j !! k) (seqZ 1 (i - 1)) ++
          s :: omap (λ k, entries j !! k) (seqZ (i + 1) (count j - i)))
    as Hall.
  { rewrite (Object_values_ascending _ 1 (count j)).
    2:{ intros k Hk. specialize (Hkeys k Hk). lia. }
    rewrite Hsplit, !omap_app. cbn. by rewrite Hs. }
  assert (Object_values (entries (Journal_removeEntry i j)) =
          omap (λ k, entries j !! k) (seqZ 1 (i - 1)) ++
          omap (λ k, entries j !! k) (seqZ (i + 1) (count j - i)))
    as Hrest.
  { rewrite (Object_values_ascending _ 1 (count j)).
    2:{ intros k [v Hk]. cbn in Hk. apply lookup_delete_Some in Hk as [_ Hk].
        specialize (Hkeys k (ltac:(eauto))). lia. }
    rewrite Hsplit, !omap_app. cbn. rewrite lookup_delete_eq.
    rewrite !omap_lookup_delete_other by (rewrite elem_of_seqZ; lia).
    done. }
  eexists _, _. split; [exact Hall|]. split; [exact Hrest|].
  unfold Journal_toString. by rewrite Hall, Hrest.
Qed.

(** Three entries, the middle one removed. *)
Lemma removeEntry_drops_one_line_witness :
  let j := after_calls [AddEntry "a"; AddEntry "b"; AddEntry "c"]
             Journal_constructor in
  entries j !! 2%Z = Some "2: b" ∧
  ∃ before after : list string,
    Object_values (entries j) = before ++ "2: b" :: after ∧
    Journal_toString (Journal_removeEntry 2 j) = join LF (before ++ after).
Proof.
  intros j.
  assert (entries j !! 2%Z = Some "2: b") as Hs by (vm_compute; reflexivity).
  split; [exact Hs|].
  destruct (removeEntry_drops_one_line
              [AddEntry "a"; AddEntry "b"; AddEntry "c"] 2 "2: b" Hs)
    as (before & after & Hall & _ & _ & Hstr).
  exists before, after. split; [exact Hall|exact Hstr].
Defined.

(** A journal never shows more entries than [addEntry] was called. *)
Theorem entries_bounded_by_calls (cs : list call) :
  let j := after_calls cs Journal_constructor in
  (length (Object_values (entries j)) ≤ length (texts cs))%nat ∧
  count j = Z.of_nat (length (texts cs)).
Proof.
  intros j.
  assert (journal_inv j) as [Hcount Hkeys]
    by apply journal_inv_after_calls, journal_inv_constructor.
  assert (count j = Z.of_nat (length (texts cs))) as Hn
    by (subst j; rewrite count_after_calls; cbn; lia).
  split; [|done].
  rewrite (Object_values_ascending _ 1 (count j)).
  2:{ intros k Hk. specialize (Hkeys k Hk). lia. }
  etrans; [apply length_omap_le|]. rewrite length_seqZ. lia.
Qed.

Lemma Object_values_addEntry (j : Journal) (text : string) :
  journal_inv j →
  Object_values (entries (Journal_addEntry text j).2) =
  Object_values (entries j) ++ [pretty (count j + 1)%Z +:+ ": " +:+ text].
Proof.
  intros Hj.
  assert (journal_inv (Journal_addEntry text j).2) as [_ Hkeys']
    by apply (journal_inv_after_call (AddEntry text)), Hj.
  destruct Hj as [Hcount Hkeys].
  rewrite (Object_values_ascending _ 1 (count j + 1)).
  2:{ intros k Hk. specialize (Hkeys' k Hk). cbn in Hkeys'. lia. }
  rewrite seqZ_app, omap_app by lia. cbn [snd Journal_addEntry entries count].
  rewrite omap_lookup_insert_fresh by (rewrite elem_of_seqZ; lia).
  rewrite <- (Object_values_ascending (entries j) 1 (count j)).
  2:{ intros k Hk. specialize (Hkeys k Hk). lia. }
  f_equal. rewrite seqZ_cons, seqZ_nil by lia. cbn.
  replace (1 + count j)%Z with (count j + 1)%Z by lia.
  by rewrite lookup_insert_eq.
Qed.

Lemma string_app_assoc (a b c : string) :
  (a +:+ b) +:+ c = a +:+ (b +:+ c).
Proof.
  induction a as [|ch a IH]; [reflexivity|].
  change (String ch ((a +:+ b) +:+ c) = String ch (a +:+ (b +:+ c))).
  by f_equal.
Qed.

Lemma join_snoc (sep : string) (xs : list string) (x : string) :
  join sep (xs ++ [x]) =
  match xs with
  | [] => x
  | _ :: _ => join sep xs +:+ sep +:+ x
  end.
Proof.
  unfold join. induction xs as [|y ys IH]; [done|].
  destruct ys as [|z zs]; [done|].
  change (String.concat sep ((y :: z :: zs) ++ [x]))
    with (y +:+ sep +:+ String.concat sep ((z :: zs) ++ [x])).
  rewrite IH.
  change (String.concat sep (y :: z :: zs))
    with (y +:+ sep +:+ String.concat sep (z :: zs)).
  by rewrite !string_app_assoc.
Qed.

Lemma length_append (a b : string) :
  String.length (a +:+ b) = (String.length a + String.length b)%nat.
Proof.
  induction a as [|c a IH]; [reflexivity|].
  change (S (String.length (a +:+ b)) =
          S (String.length a + String.length b)).
  by f_equal.
Qed.

Lemma toString_addEntry (j : Journal) (text : string) :
  journal_inv j →
  let line := pretty (count j + 1)%Z +:+ ": " +:+ text in
  Journal_toString (Journal_addEntry text j).2 =
    match Object_values (entries j) with
    | [] => line
    | _ :: _ => Journal_toString j +:+ LF +:+ line
    end ∧
  Journal_toString (Journal_addEntry text j).2 ≠ Journal_toString j.
Proof.
  intros Hj line.
  pose proof (Object_values_addEntry j text Hj) as Hvalues.
  fold line in Hvalues.
  assert (Journal_toString (Journal_addEntry text j).2 =
          match Object_values (entries j) with
          | [] => line
          | _ :: _ => Journal_toString j +:+ LF +:+ line
          end) as Htext.
  { unfold Journal_toString at 1. rewrite Hvalues, join_snoc. done. }
  split; [done|].
  rewrite Htext. intros Heq. apply (f_equal String.length) in Heq.
  unfold Journal_toString in Heq.
  destruct (Object_values (entries j)) as [|v vs].
  - subst line. destruct (pretty (count j + 1)%Z); cbn in Heq;
      rewrite ?length_append in Heq; cbn in Heq; lia.
  - rewrite !length_append in Heq. cbn in Heq. lia.
Qed.

(** [addEntry] puts its line last, after every line still stored, whatever
    was removed before; the text grows by that line. *)
Theorem addEntry_appends_line (cs : list call) (text : string) :
  let j := after_calls cs Journal_constructor in
  let line := pretty (count j + 1)%Z +:+ ": " +:+ text in
  Object_values (entries (Journal_addEntry text j).2) =
    Object_values (entries j) ++ [line] ∧
  Journal_toString (Journal_addEntry text j).2 =
    match Object_values (entries j) with
    | [] => line
    | _ :: _ => Journal_toString j +:+ LF +:+ line
    end ∧
  Journal_toString (Journal_addEntry text j).2 ≠ Journal_toString j.
Proof.
  intros j line.
  assert (journal_inv j) as Hj
    by apply journal_inv_after_calls, journal_inv_constructor.
  split; [by apply Object_values_addEntry|].
  by apply toString_addEntry.
Qed.

End JournalLifetime.

(** ** Saving *)
Section SavingFacts.
Import SingleResponsibility.
Context `{!NumberFormat}.
Variable write_error : string → string → option write_failure.

(** A save that succeeds leaves the journal's text in the named file and
    changes nothing else: no other file, no object, no console line. *)
Theorem saveToFile_success
    (σ : world) (journal : loc) (j : Journal) (fileName : string) :
  heap σ !! journal = Some (OJournal j) →
  write_error fileName (Journal_toString j) = None →
  ∃ σ' : world,
    run (saveToFile write_error journal fileName) σ = (Normal (), σ') ∧
    files σ' !! fileName = Some (Journal_toString j) ∧
    (∀ other, other ≠ fileName → files σ' !! other = files σ !! other) ∧
    heap σ' = heap σ ∧ console σ' = console σ ∧ next_loc σ' = next_loc σ.
Proof.
  intros Hj Hok.
  rewrite (run_saveToFile write_error σ journal j) by done.
  rewrite run_writeFileSync, Hok.
  eexists. split; [reflexivity|]. cbn.
  split; [apply lookup_insert_eq|].
  split; [intros other Hne; by rewrite lookup_insert_ne|done].
Qed.

(** [saveToFile] asks its argument for [toString] and nothing more: given a
    rectangle or a square it saves the shape's text. *)
Theorem saveToFile_any_toString
    (σ : world) (x : loc) (s : Shape) (fileName : string) :
  heap σ !! x = Some (OShape s) →
  let text := ToString (width s) +:+ "x" +:+ ToString (height s) in
  fs_calls (run (saveToFile write_error x fileName) σ).2 =
    fs_calls σ ++ [(fileName, text)] ∧
  (write_error fileName text = None →
   (run (saveToFile write_error x fileName) σ).1 = Normal () ∧
   files (run (saveToFile write_error x fileName) σ).2 !! fileName =
     Some text).
Proof.
  intros Hx text.
  assert (run (saveToFile write_error x fileName) σ =
          run (writeFileSync write_error fileName text) σ) as ->.
  { unfold saveToFile, toString.
    by rewrite !run_bind, (run_load _ _ _ Hx). }
  rewrite run_writeFileSync. split.
  - by destruct (write_error fileName text).
  - intros ->. cbn. split; [done|apply lookup_insert_eq].
Qed.

(** The file follows the journal only at a save: an entry added after a
    save is in the text but not in the file, and the next save to the same
    name replaces the file with the whole new text. *)
Theorem file_follows_saves
    (σ : world) (journal : loc) (cs : list call) (fileName text : string) :
  let j := after_calls cs Journal_constructor in
  let j' := (Journal_addEntry text j).2 in
  heap σ !! journal = Some (OJournal j) →
  write_error fileName (Journal_toString j) = None →
  write_error fileName (Journal_toString j') = None →
  let once :=
    run (saveToFile write_error journal fileName;;
         addEntry journal text;;
         toString journal) σ in
  let twice :=
    run (saveToFile write_error journal fileName;;
         addEntry journal text;;
         saveToFile write_error journal fileName) σ in
  once.1 = Normal (Journal_toString j') ∧
  files once.2 !! fileName = Some (Journal_toString j) ∧
  Journal_toString j ≠ Journal_toString j' ∧
  twice.1 = Normal () ∧
  files twice.2 !! fileName = Some (Journal_toString j') ∧
  fs_calls twice.2 =
    fs_calls σ ++ [(fileName, Journal_toString j);
                   (fileName, Journal_toString j')].
Proof.
  intros j j' Hj Hok Hok' once twice.
  assert (run (saveToFile write_error journal fileName) σ =
          (Normal (),
           mkWorld (heap σ) (next_loc σ) (console σ)
             (<[fileName := Journal_toString j]> (files σ))
             (fs_calls σ ++ [(fileName, Journal_toString j)]))) as Hsave.
  { rewrite (run_saveToFile write_error σ journal j) by done.
    by rewrite run_writeFileSync, Hok. }
  set (σ1 := mkWorld _ _ _ _ _) in Hsave.
  assert (heap σ1 !! journal = Some (OJournal j)) as Hj1 by done.
  pose proof (run_addEntry σ1 journal j text Hj1) as Hadd.
  fold j' in Hadd. set (σ2 := with_heap _ σ1) in Hadd.
  assert (heap σ2 !! journal = Some (OJournal j')) as Hj2
    by apply lookup_insert_eq.
  assert (Journal_toString j ≠ Journal_toString j') as Hne.
  { intros Heq.
    assert (journal_inv j) as Hinv
      by apply journal_inv_after_calls, journal_inv_constructor.
    by destruct (toString_addEntry j text Hinv) as [_ Hdiff]. }
  subst once twice.
  rewrite !run_bind, Hsave, !run_bind, Hadd.
  rewrite (run_toString_journal _ _ _ Hj2).
  rewrite (run_saveToFile write_error σ2 journal j') by done.
  rewrite run_writeFileSync, Hok'. cbn.
  split; [done|]. split; [apply lookup_insert_eq|]. split; [done|].
  split; [done|]. split; [apply lookup_insert_eq|].
  by rewrite <- app_assoc.
Qed.

End SavingFacts.

Section SavingWitnesses.
Import SingleResponsibility.
#[local] Existing Instance plain_format.

(** A disk that takes every write, and the journal of the script. *)
Lemma saveToFile_success_witness :
  let accept : string → string → option write_failure := λ _ _, None in
  let σ := (run (new_Journal ≫= λ journal,
                   addEntry journal "Today was a great day!";;
                   addEntry journal "I made a new friend today")
                (initial {["./notes.txt" := "keep"]})).2 in
  let j := after_calls [AddEntry "Today was a great day!";
                        AddEntry "I made a new friend today"]
                       Journal_constructor in
  heap σ !! 0%nat = Some (OJournal j) ∧
  accept "./journal.txt" (Journal_toString j) = None ∧
  ∃ σ' : world,
    run (saveToFile accept 0%nat "./journal.txt") σ = (Normal (), σ') ∧
    files σ' !! "./journal.txt" =
      Some (join LF ["1: Today was a great day!";
                     "2: I made a new friend today"]) ∧
    files σ' !! "./notes.txt" = Some "keep".
Proof.
  intros accept σ j.
  assert (heap σ !! 0%nat = Some (OJournal j)) as Hj by reflexivity.
  assert (accept "./journal.txt" (Journal_toString j) = None) as Hok
    by reflexivity.
  split; [exact Hj|]. split; [exact Hok|].
  destruct (saveToFile_success accept σ 0%nat j "./journal.txt" Hj Hok)
    as (σ' & Hrun & Hfile & Hother & _).
  exists σ'. split; [exact Hrun|]. split.
  - rewrite Hfile. vm_compute. reflexivity.
  - rewrite Hother by discriminate. reflexivity.
Defined.

(** The 10 by 20 rectangle of the Liskov script, saved. *)
Lemma saveToFile_any_toString_witness :
  let accept : string → string → option write_failure := λ _ _, None in
  let σ := (run (Liskov.new_Rectangle (Num 10) (Num 20)) (initial ∅)).2 in
  heap σ !! 0%nat = Some (OShape (mkShape Rectangle (Num 10) (Num 20))) ∧
  accept "./shape.txt" "10x20" = None ∧
  files (run (saveToFile accept 0%nat "./shape.txt") σ).2 !! "./shape.txt" =
    Some "10x20".
Proof.
  intros accept σ.
  assert (heap σ !! 0%nat =
          Some (OShape (mkShape Rectangle (Num 10) (Num 20)))) as Hx
    by reflexivity.
  assert (accept "./shape.txt" "10x20" = None) as Hok by reflexivity.
  split; [exact Hx|]. split; [exact Hok|].
  destruct (saveToFile_any_toString accept σ 0%nat _ "./shape.txt" Hx)
    as [_ Hfile].
  destruct (Hfile Hok) as [_ Hread]. exact Hread.
Defined.

(** One entry saved, a second one added, then saved again. *)
Lemma file_follows_saves_witness :
  let accept : string → string → option write_failure := λ _ _, None in
  let σ := (run (new_Journal ≫= λ journal, addEntry journal "a")
                (initial ∅)).2 in
  let j := after_calls [AddEntry "a"] Journal_constructor in
  heap σ !! 0%nat = Some (OJournal j) ∧
  files (run (saveToFile accept 0%nat "f";; addEntry 0%nat "b";;
              toString 0%nat) σ).2 !! "f" = Some "1: a" ∧
  files (run (saveToFile accept 0%nat "f";; addEntry 0%nat "b";;
              saveToFile accept 0%nat "f") σ).2 !! "f" =
    Some (join LF ["1: a"; "2: b"]).
Proof.
  intros accept σ j.
  assert (heap σ !! 0%nat = Some (OJournal j)) as Hj by reflexivity.
  split; [exact Hj|].
  destruct (file_follows_saves accept σ 0%nat [AddEntry "a"] "f" "b"
              Hj eq_refl eq_refl)
    as (_ & Hstale & _ & _ & Hfresh & _).
  split.
  - rewrite Hstale. vm_compute. reflexivity.
  - rewrite Hfresh. vm_compute. reflexivity.
Defined.

End SavingWitnesses.

(** ** Filters over any list of products *)
Section FilterLaws.
Import OpenClosed.

Lemma Array_filter_sublist {A} (f : A → bool) (xs : list A) :
  sublist (Array_filter f xs) xs.
Proof.
  unfold Array_filter. induction xs as [|x xs IH]; cbn; [constructor|].
  destruct (f x); by constructor.
Qed.

Lemma Array_filter_twice {A} (f g : A → bool) (xs : list A) :
  Array_filter g (Array_filter f xs) = Array_filter (λ x, f x && g x) xs.
Proof.
  unfold Array_filter. induction xs as [|x xs IH]; cbn; [done|].
  destruct (f x); cbn; [destruct (g x)|]; by rewrite IH.
Qed.

Lemma Array_filter_ext {A} (f g : A → bool) (xs : list A) :
  (∀ x, f x = g x) → Array_filter f xs = Array_filter g xs.
Proof. intros Hfg. unfold Array_filter. by apply filter_ext. Qed.

Lemma strict_eq_refl (a : string) : strict_eq a a = true.
Proof. by apply strict_eq_spec. Qed.

Lemma strict_eq_ne (a b : string) : a ≠ b → strict_eq a b = false.
Proof.
  intros Hne. destruct (strict_eq a b) eqn:E; [|done].
  by apply strict_eq_spec in E.
Qed.

(** [filterByColor] and [filterBySize] keep exactly the products with the
    asked colour or size, in the order they came, and add none. *)
Theorem product_filters_select (products : list Product) (c s : string)
    (p : Product) :
  (p ∈ filterByColor products c ↔ p ∈ products ∧ Data.color p = c) ∧
  (p ∈ filterBySize products s ↔ p ∈ products ∧ Data.size p = s) ∧
  sublist (filterByColor products c) products ∧
  sublist (filterBySize products s) products.
Proof.
  unfold filterByColor, filterBySize.
  rewrite !elem_of_Array_filter, !strict_eq_spec.
  repeat split; try tauto; apply Array_filter_sublist.
Qed.

(** Filtering by colour and by size can be done in either order, with
    either kind of filter, and keeps the products that have both. *)
Theorem product_filters_compose (products : list Product) (c s : string)
    (p : Product) :
  filterBySize (filterByColor products c) s =
    filterByColor (filterBySize products s) c ∧
  Filter2_filter (Filter2_filter products (new_ColorSpecification c))
                 (new_SizeSpecification s) =
    filterBySize (filterByColor products c) s ∧
  (p ∈ filterBySize (filterByColor products c) s ↔
   p ∈ products ∧ Data.color p = c ∧ Data.size p = s).
Proof.
  split; [|split].
  - unfold filterByColor, filterBySize. rewrite !Array_filter_twice.
    apply Array_filter_ext. intros x. apply andb_comm.
  - reflexivity.
  - unfold filterByColor, filterBySize.
    rewrite !elem_of_Array_filter, !strict_eq_spec. tauto.
Qed.

(** Filtering again by the same colour changes nothing; filtering by another
    colour leaves nothing. *)
Theorem filterByColor_twice (products : list Product) (c c' : string) :
  filterByColor (filterByColor products c) c = filterByColor products c ∧
  (c ≠ c' → filterByColor (filterByColor products c) c' = []).
Proof.
  unfold filterByColor. rewrite !Array_filter_twice. split.
  - apply Array_filter_ext. intros x. by destruct (strict_eq _ _).
  - intros Hne. unfold Array_filter.
    induction products as [|x xs IH]; [done|]. cbn.
    destruct (strict_eq (Data.color x) c) eqn:E; cbn; [|done].
    apply strict_eq_spec in E. rewrite strict_eq_ne by congruence. done.
Qed.

Lemma filterByColor_twice_witness :
  OpenClosed.Color.red ≠ OpenClosed.Color.green ∧
  filterByColor (filterByColor products OpenClosed.Color.red)
                OpenClosed.Color.green = [].
Proof.
  assert (OpenClosed.Color.red ≠ OpenClosed.Color.green) as Hne
    by discriminate.
  split; [exact Hne|].
  destruct (filterByColor_twice products OpenClosed.Color.red
              OpenClosed.Color.green) as [_ Hnone].
  exact (Hnone Hne).
Defined.

(** A filter returns the empty list exactly when no product matches; in
    particular on the empty list. *)
Theorem filter_empty_iff_no_match (products : list Product) (c : string) :
  (filterByColor products c = [] ↔
   ∀ p, p ∈ products → Data.color p ≠ c) ∧
  (Filter2_filter products (new_ColorSpecification c) = [] ↔
   ∀ p, p ∈ products → Data.color p ≠ c) ∧
  filterByColor [] c = [].
Proof.
  assert (filterByColor products c = [] ↔
          ∀ p, p ∈ products → Data.color p ≠ c) as Hiff.
  { split.
    - intros Hnil p Hp Hc.
      assert (p ∈ filterByColor products c) as Hin.
      { unfold filterByColor.
        rewrite elem_of_Array_filter, strict_eq_spec. done. }
      rewrite Hnil in Hin. by apply elem_of_nil in Hin.
    - intros Hnone. unfold filterByColor, Array_filter.
      induction products as [|x xs IH]; [done|]. cbn.
      rewrite strict_eq_ne by (apply Hnone; left).
      apply IH. intros p Hp. apply Hnone. by right. }
  split; [done|]. split; [exact Hiff|done].
Qed.

(** No product of the script is purple. *)
Lemma filter_empty_iff_no_match_witness :
  (∀ p, p ∈ products → Data.color p ≠ "purple") ∧
  filterByColor products "purple" = [].
Proof.
  assert (∀ p, p ∈ products → Data.color p ≠ "purple") as Hnone.
  { intros p Hp. unfold products in Hp.
    repeat (apply elem_of_cons in Hp as [->|Hp]; [discriminate|]).
    by apply elem_of_nil in Hp. }
  split; [exact Hnone|].
  destruct (filter_empty_iff_no_match products "purple") as [[_ Hnil] _].
  exact (Hnil Hnone).
Defined.

(** [Filter2] with any specification whose [isSatisfied] is a function of
    the item and the specification's fields: it keeps the items the
    specification accepts, in order, splits over concatenation, and
    filtering its result again changes nothing. *)
Theorem Filter2_pure_specification
    {S : Type} `{Specification S} (spec : S)
    (items more : list Product) (p : Product) :
  (p ∈ Filter2_filter items spec ↔
   p ∈ items ∧ isSatisfied spec p = true) ∧
  sublist (Filter2_filter items spec) items ∧
  Filter2_filter (items ++ more) spec =
    Filter2_filter items spec ++ Filter2_filter more spec ∧
  Filter2_filter (Filter2_filter items spec) spec = Filter2_filter items spec.
Proof.
  unfold Filter2_filter. split; [apply elem_of_Array_filter|].
  split; [apply Array_filter_sublist|]. split.
  - unfold Array_filter. apply List.filter_app.
  - rewrite Array_filter_twice. apply Array_filter_ext.
    intros x. by destruct (isSatisfied spec x).
Qed.

End FilterLaws.
